(** * The token-list validator of [src/validate.ts]

    A shallow embedding of [validateTokenList] and the properties of its
    checks: timestamp and version ordering, the four per-chain uniqueness
    loops, the comparison against the previous list, and the place of the
    logo probes in the run.

    Numbers of the JSON documents ([chainId], [decimals], the version
    fields) are integers and are modelled by [Z]; strings are [string],
    and [toLowerCase] is any function on them. The documents are values
    of the declared interfaces: a previous file that parses to something
    else is outside the model.
    [console.error], [console.log], [axios.head] and [process.exit] are
    kept as effects: a run yields the events it performed and the way it
    ended. *)

From Stdlib Require Import ZArith Ascii String List Lia.
From Stdlib Require Import DecimalString DecimalPos DecimalZ.
From stdpp Require Import base option list gmap strings.

Local Open Scope string_scope.
Local Open Scope list_scope.
Local Open Scope Z_scope.

(** ** Data model: the interfaces [Token] and [TokenList] *)

Module Token.
Record t : Type := mk {
  name : string;
  chainId : Z;
  symbol : string;
  decimals : Z;
  address : string;
  logoURI : string
}.
End Token.

Record Version : Type := mkVersion {
  major : Z;
  minor : Z;
  patch : Z
}.

Module TokenList.
Record t : Type := mk {
  name : string;
  version : Version;
  keywords : list string;
  logoURI : string;
  timestamp : string;
  tokens : list Token.t
}.
End TokenList.

Definition ALLOWED_CHAIN_IDS : list Z := [89898; 2786].
Definition REQUIRED_KEYWORDS : list string := ["apertum"; "tokens"; "trusted"].
Definition REQUIRED_LIST_LOGO_URI : string :=
  "https://assets.apertum.io/assets/apertum-logo.svg".

(** ** The JavaScript operations the validator relies on *)

(** [String.prototype.toLowerCase]: the built-in folds every cased
    letter of Unicode. The validator is modelled over this function as
    it is, an arbitrary map from strings to strings: nothing below
    depends on which letters it folds. *)
Class LowerCase : Type := toLowerCase : string → string.

(** The fold of the ASCII letters ([A]..[Z] to [a]..[z], every other
    character kept), with which the sample documents, all ASCII, are
    run. *)
Definition lowerChar (c : ascii) : ascii :=
  let n := N_of_ascii c in
  if ((65 <=? n) && (n <=? 90))%N then ascii_of_N (n + 32) else c.

Fixpoint asciiToLowerCase (s : string) : string :=
  match s with
  | EmptyString => EmptyString
  | String c s' => String (lowerChar c) (asciiToLowerCase s')
  end.

Definition asciiLowerCase : LowerCase := asciiToLowerCase.

(** The text a template literal gives for an integer number: decimal
    digits, with a leading minus sign when negative (what JavaScript
    prints for every integer below 10^21 in magnitude). *)
Definition Number_toString (n : Z) : string :=
  NilZero.string_of_int (Z.to_int n).

(** The map keys of the source, [`${chainId}-${text}`]. *)
Definition chainKey (chainId : Z) (text : string) : string :=
  Number_toString chainId +:+ "-" +:+ text.

(** A [Date] is its time value: milliseconds since the epoch, or [None]
    for an invalid date (time value [NaN]). The relational operators
    convert both sides to numbers, and every comparison with [NaN] is
    false. *)
Definition Date := option Z.

Definition Date_lt (a b : Date) : bool :=
  match a, b with
  | Some x, Some y => x <? y
  | _, _ => false
  end.

Definition Date_gt (a b : Date) : bool := Date_lt b a.

(** [new Map(entries)]: the entries are set in order, so a later entry
    replaces an earlier one with the same key. *)
Definition Map_of_entries {V} (entries : list (string * V)) : gmap string V :=
  foldl (λ m kv, <[kv.1 := kv.2]> m) ∅ entries.

(** ** Effects *)

(** What the process reads from outside the two documents: the wall
    clock ([new Date()]) and, for each URI, the answer to a HEAD request
    ([Some status] when the promise resolves, [None] when it rejects,
    as axios does on a network error or a status outside 2xx). *)
Record World : Type := mkWorld {
  clock : Z;
  network : string → option Z
}.

(** One constructor for each [console.error] call of the source, with
    the values its message interpolates. *)
Inductive diagnostic : Type :=
  | SchemaValidationFailed
  | ListNameChanged
  | KeywordsChanged
  | ListLogoURIChanged
  | TimestampInFuture
  | TimestampOlderThanPrevious
  | VersionNotIncremented
  | DuplicateAddress (token : Token.t)
  | DuplicateName (token : Token.t) (other : string)
  | DuplicateSymbol (token : Token.t) (other : string)
  | DuplicateLogoURI (token : Token.t) (other : string)
  | ExistingTokenModified (token : Token.t)
  | InvalidChainId (token : Token.t)
  | InvalidLogoURI (token : Token.t)
  | LogoURIProbeFailed (token : Token.t).

Definition quote (s : string) : string :=
  String (ascii_of_nat 34) s +:+ String (ascii_of_nat 34) EmptyString.

(** The text of each message (the schema errors object is not rendered). *)
Definition message (d : diagnostic) : string :=
  match d with
  | SchemaValidationFailed => "Schema validation failed:"
  | ListNameChanged => "List name cannot be changed"
  | KeywordsChanged => "Keywords cannot be changed"
  | ListLogoURIChanged => "List logoURI cannot be changed"
  | TimestampInFuture => "Timestamp cannot be in the future"
  | TimestampOlderThanPrevious => "Timestamp cannot be older than previous version"
  | VersionNotIncremented => "Version must be incremented"
  | DuplicateAddress token =>
      "Duplicate token address found: " +:+ Token.address token +:+
      " on chain " +:+ Number_toString (Token.chainId token)
  | DuplicateName token other =>
      "Duplicate token name found for chain " +:+
      Number_toString (Token.chainId token) +:+ ": " +:+ quote (Token.name token) +:+
      " (used by " +:+ Token.symbol token +:+ " and " +:+ other +:+ ")"
  | DuplicateSymbol token other =>
      "Duplicate token symbol found for chain " +:+
      Number_toString (Token.chainId token) +:+ ": " +:+ quote (Token.symbol token) +:+
      " (used by " +:+ Token.name token +:+ " and " +:+ other +:+ ")"
  | DuplicateLogoURI token other =>
      "Duplicate logoURI found for chain " +:+
      Number_toString (Token.chainId token) +:+ ": " +:+ Token.logoURI token +:+
      " (used by " +:+ Token.symbol token +:+ " and " +:+ other +:+ ")"
  | ExistingTokenModified token =>
      "Existing token " +:+ Token.symbol token +:+ " (" +:+ Token.address token +:+
      ") has been modified"
  | InvalidChainId token =>
      "Invalid chain ID " +:+ Number_toString (Token.chainId token) +:+
      " for token " +:+ Token.symbol token +:+ ". Only 89898, 2786 are allowed."
  | InvalidLogoURI token =>
      "Invalid logo URI for token " +:+ Token.symbol token +:+ ": " +:+ Token.logoURI token
  | LogoURIProbeFailed token =>
      "Failed to validate logo URI for token " +:+ Token.symbol token +:+ ": " +:+
      Token.logoURI token
  end.

Inductive event : Type :=
  | ConsoleError (d : diagnostic)
  | ConsoleLog (text : string)
  | AxiosHead (uri : string).

(** A computation either goes on with a value or has ended the process
    through [process.exit]. *)
Inductive completion (A : Type) : Type :=
  | Normal (a : A)
  | ProcessExit (code : Z).
Arguments Normal {A} a.
Arguments ProcessExit {A} code.

Definition Proc (A : Type) : Type := World → list event * completion A.

Definition Proc_ret {A} (a : A) : Proc A := λ _, ([], Normal a).

Definition Proc_bind {A B} (m : Proc A) (k : A → Proc B) : Proc B :=
  λ w,
    match m w with
    | (tr, Normal a) => let '(tr', r) := k a w in (tr ++ tr', r)
    | (tr, ProcessExit code) => (tr, ProcessExit code)
    end.

Global Instance Proc_mret : MRet Proc := @Proc_ret.
Global Instance Proc_mbind : MBind Proc := λ A B k m, Proc_bind m k.

Definition console_error (d : diagnostic) : Proc unit :=
  λ _, ([ConsoleError d], Normal tt).

Definition console_log (text : string) : Proc unit :=
  λ _, ([ConsoleLog text], Normal tt).

Definition process_exit {A} (code : Z) : Proc A :=
  λ _, ([], ProcessExit code).

Definition Date_now : Proc Date := λ w, ([], Normal (Some (clock w))).

Definition axios_head (uri : string) : Proc (option Z) :=
  λ w, ([AxiosHead uri], Normal (network w uri)).

Definition when (b : bool) (p : Proc unit) : Proc unit :=
  if b then p else mret tt.

(** The pattern of every failing branch:
    [console.error(...); process.exit(1)]. *)
Definition fail {A} (d : diagnostic) : Proc A :=
  console_error d ;; process_exit 1.

(** [for (const x of l) body], threading the state the body updates. *)
Fixpoint forOf {A S} (body : S → A → Proc S) (s : S) (l : list A) : Proc S :=
  match l with
  | [] => mret s
  | x :: l' => s' ← body s x; forOf body s' l'
  end.

Definition forEach {A} (body : A → Proc unit) (l : list A) : Proc unit :=
  forOf (λ _ x, body x) tt l.

(** ** The validator *)

Section Validator.

Context {fold : LowerCase}.

(** [validate = ajv.compile(schema)]: the schema file is not among the
    sources, so the compiled schema is an arbitrary predicate. *)
Variable validate : TokenList.t → bool.

(** [new Date(text)], the built-in parser of date strings. *)
Variable Date_parse : string → Date.

(** Validate against schema *)
Definition validateSchema (tokenList : TokenList.t) : Proc unit :=
  when (negb (validate tokenList)) (fail SchemaValidationFailed).

(** Validate list name *)
Definition validateListName (tokenList : TokenList.t) : Proc unit :=
  when (bool_decide (TokenList.name tokenList ≠ "Apertum Token List"))
    (fail ListNameChanged).

(** Validate keywords *)
Definition validateKeywords (tokenList : TokenList.t) : Proc unit :=
  when (negb (forallb (λ keyword, bool_decide (keyword ∈ TokenList.keywords tokenList))
                REQUIRED_KEYWORDS))
    (fail KeywordsChanged).

(** Validate list logo URI *)
Definition validateListLogoURI (tokenList : TokenList.t) : Proc unit :=
  when (bool_decide (TokenList.logoURI tokenList ≠ REQUIRED_LIST_LOGO_URI))
    (fail ListLogoURIChanged).

(** Validate timestamp *)
Definition validateTimestamp (tokenList : TokenList.t)
    (previousTokenList : option TokenList.t) : Proc unit :=
  let currentTimestamp := Date_parse (TokenList.timestamp tokenList) in
  now ← Date_now;
  when (Date_gt currentTimestamp now) (fail TimestampInFuture) ;;
  match previousTokenList with
  | Some previous =>
      let previousTimestamp := Date_parse (TokenList.timestamp previous) in
      when (Date_lt currentTimestamp previousTimestamp)
        (fail TimestampOlderThanPrevious)
  | None => mret tt
  end.

(** Validate version *)
Definition validateVersion (tokenList : TokenList.t)
    (previousTokenList : option TokenList.t) : Proc unit :=
  match previousTokenList with
  | Some previous =>
      let prevVersion := TokenList.version previous in
      let newVersion := TokenList.version tokenList in
      when ((major newVersion <? major prevVersion)
            || ((major newVersion =? major prevVersion)
                && (minor newVersion <? minor prevVersion))
            || ((major newVersion =? major prevVersion)
                && (minor newVersion =? minor prevVersion)
                && (patch newVersion <=? patch prevVersion)))
        (fail VersionNotIncremented)
  | None => mret tt
  end.

(** Check for duplicate addresses *)
Definition checkDuplicateAddresses (tokenList : TokenList.t) : Proc unit :=
  forOf (λ (addressMap : gmap string string) token,
      let key := chainKey (Token.chainId token) (toLowerCase (Token.address token)) in
      match addressMap !! key with
      | Some _ => fail (DuplicateAddress token)
      | None => mret (<[key := Token.symbol token]> addressMap)
      end) ∅ (TokenList.tokens tokenList) ;;
  mret tt.

(** Check for duplicate names within the same chainId *)
Definition checkDuplicateNames (tokenList : TokenList.t) : Proc unit :=
  forOf (λ (nameMap : gmap string string) token,
      let key := chainKey (Token.chainId token) (toLowerCase (Token.name token)) in
      match nameMap !! key with
      | Some other => fail (DuplicateName token other)
      | None => mret (<[key := Token.symbol token]> nameMap)
      end) ∅ (TokenList.tokens tokenList) ;;
  mret tt.

(** Check for duplicate symbols within the same chainId *)
Definition checkDuplicateSymbols (tokenList : TokenList.t) : Proc unit :=
  forOf (λ (symbolMap : gmap string string) token,
      let key := chainKey (Token.chainId token) (toLowerCase (Token.symbol token)) in
      match symbolMap !! key with
      | Some other => fail (DuplicateSymbol token other)
      | None => mret (<[key := Token.name token]> symbolMap)
      end) ∅ (TokenList.tokens tokenList) ;;
  mret tt.

(** Check for duplicate logoURIs within the same chainId *)
Definition checkDuplicateLogoURIs (tokenList : TokenList.t) : Proc unit :=
  forOf (λ (logoURIMap : gmap string string) token,
      let key := chainKey (Token.chainId token) (Token.logoURI token) in
      match logoURIMap !! key with
      | Some other => fail (DuplicateLogoURI token other)
      | None => mret (<[key := Token.symbol token]> logoURIMap)
      end) ∅ (TokenList.tokens tokenList) ;;
  mret tt.

(** The four uniqueness loops, in the order of the source. *)
Definition checkDuplicates (tokenList : TokenList.t) : Proc unit :=
  checkDuplicateAddresses tokenList ;;
  checkDuplicateNames tokenList ;;
  checkDuplicateSymbols tokenList ;;
  checkDuplicateLogoURIs tokenList.

(** Validate existing tokens haven't changed *)
Definition validateExistingTokens (tokenList : TokenList.t)
    (previousTokenList : option TokenList.t) : Proc unit :=
  match previousTokenList with
  | Some previous =>
      let previousTokens :=
        Map_of_entries
          ((λ token,
              (chainKey (Token.chainId token) (toLowerCase (Token.address token)), token))
             <$> TokenList.tokens previous) in
      forEach (λ token,
          let key := chainKey (Token.chainId token) (toLowerCase (Token.address token)) in
          match previousTokens !! key with
          | Some previousToken =>
              when (bool_decide (Token.name token ≠ Token.name previousToken)
                    || bool_decide (Token.symbol token ≠ Token.symbol previousToken)
                    || bool_decide (Token.decimals token ≠ Token.decimals previousToken)
                    || bool_decide (Token.logoURI token ≠ Token.logoURI previousToken))
                (fail (ExistingTokenModified token))
          | None => mret tt
          end) (TokenList.tokens tokenList)
  | None => mret tt
  end.

(** Validate chain IDs *)
Definition validateChainIds (tokenList : TokenList.t) : Proc unit :=
  forEach (λ token,
      when (negb (bool_decide (Token.chainId token ∈ ALLOWED_CHAIN_IDS)))
        (fail (InvalidChainId token)))
    (TokenList.tokens tokenList).

(** Validate logo URIs *)
Definition validateLogoURIs (tokenList : TokenList.t) : Proc unit :=
  forEach (λ token,
      response ← axios_head (Token.logoURI token);
      match response with
      | Some status =>
          when (bool_decide (status ≠ 200)) (fail (InvalidLogoURI token))
      | None => fail (LogoURIProbeFailed token)
      end)
    (TokenList.tokens tokenList).

(** Everything before the logo probes. *)
Definition deterministicChecks (tokenList : TokenList.t)
    (previousTokenList : option TokenList.t) : Proc unit :=
  validateSchema tokenList ;;
  validateListName tokenList ;;
  validateKeywords tokenList ;;
  validateListLogoURI tokenList ;;
  validateTimestamp tokenList previousTokenList ;;
  validateVersion tokenList previousTokenList ;;
  checkDuplicates tokenList ;;
  validateExistingTokens tokenList previousTokenList ;;
  validateChainIds tokenList.

Definition validateTokenList (tokenList : TokenList.t)
    (previousTokenList : option TokenList.t) : Proc unit :=
  deterministicChecks tokenList previousTokenList ;;
  validateLogoURIs tokenList ;;
  console_log "Token list validation passed successfully!".

End Validator.

(** ** Vocabulary of the properties *)

Section Vocabulary.

Context {fold : LowerCase}.

(** The source has no error type: a failing check prints its message and
    ends the process. The specification names eight kinds of violation;
    [violationKind] files each message of the source under its kind. *)
Inductive ViolationKind : Type :=
  | SchemaViolation
  | ImmutableFieldViolation
  | TimestampViolation
  | VersionViolation
  | DuplicateViolation
  | ImmutableRecordViolation
  | ChainIdViolation
  | UnreachableLogoViolation.

Definition violationKind (d : diagnostic) : ViolationKind :=
  match d with
  | SchemaValidationFailed => SchemaViolation
  | ListNameChanged | KeywordsChanged | ListLogoURIChanged => ImmutableFieldViolation
  | TimestampInFuture | TimestampOlderThanPrevious => TimestampViolation
  | VersionNotIncremented => VersionViolation
  | DuplicateAddress _ | DuplicateName _ _ | DuplicateSymbol _ _ | DuplicateLogoURI _ _ =>
      DuplicateViolation
  | ExistingTokenModified _ => ImmutableRecordViolation
  | InvalidChainId _ => ChainIdViolation
  | InvalidLogoURI _ | LogoURIProbeFailed _ => UnreachableLogoViolation
  end.

(** A check passes when it goes on without an event; it fails with [d]
    when it prints [d] and ends the process with code 1. *)
Definition passes (p : Proc unit) (w : World) : Prop := p w = ([], Normal tt).

Definition failsWith (p : Proc unit) (w : World) (d : diagnostic) : Prop :=
  p w = ([ConsoleError d], ProcessExit 1).

(** The run comes back to its caller. *)
Definition returnsToCaller {A} (p : Proc A) (w : World) : Prop :=
  ∃ tr a, p w = (tr, Normal a).

(** A computation that performs no probe: it either goes on silently or
    prints one diagnostic satisfying [P] and ends the process with code 1. *)
Definition checks {A} (P : diagnostic → Prop) (p : Proc A) : Prop :=
  ∀ w, (∃ a, p w = ([], Normal a))
       ∨ (∃ d, P d ∧ p w = ([ConsoleError d], ProcessExit 1)).

(** A computation that reads nothing of the world but the clock. *)
Definition clockOnly {A} (p : Proc A) : Prop :=
  ∀ w1 w2, clock w1 = clock w2 → p w1 = p w2.

(** Strict order on points in time; an invalid date is before or after
    nothing. *)
Definition Date_before (a b : Date) : Prop :=
  ∃ x y, a = Some x ∧ b = Some y ∧ x < y.

Definition timestampInFuture (Date_parse : string → Date) (w : World)
    (tokenList : TokenList.t) : Prop :=
  Date_before (Some (clock w)) (Date_parse (TokenList.timestamp tokenList)).

Definition timestampRegressed (Date_parse : string → Date)
    (tokenList : TokenList.t) (previousTokenList : option TokenList.t) : Prop :=
  ∃ previous, previousTokenList = Some previous
    ∧ Date_before (Date_parse (TokenList.timestamp tokenList))
        (Date_parse (TokenList.timestamp previous)).

(** Lexicographic order on [(major, minor, patch)]. *)
Definition Version_lt (a b : Version) : Prop :=
  major a < major b
  ∨ (major a = major b ∧ minor a < minor b)
  ∨ (major a = major b ∧ minor a = minor b ∧ patch a < patch b).

(** The identity key of a record and the three other per-chain keys. *)
Definition identityKey (t : Token.t) : Z * string :=
  (Token.chainId t, toLowerCase (Token.address t)).

Definition nameKey (t : Token.t) : Z * string :=
  (Token.chainId t, toLowerCase (Token.name t)).

Definition symbolKey (t : Token.t) : Z * string :=
  (Token.chainId t, toLowerCase (Token.symbol t)).

Definition logoKey (t : Token.t) : Z * string :=
  (Token.chainId t, Token.logoURI t).

Definition sharesKey (a b : Token.t) : Prop :=
  identityKey a = identityKey b ∨ nameKey a = nameKey b
  ∨ symbolKey a = symbolKey b ∨ logoKey a = logoKey b.

(** Two records, at different positions of the list, share a key. *)
Definition hasDuplicate (l : list Token.t) : Prop :=
  ∃ i j a b, i ≠ j ∧ l !! i = Some a ∧ l !! j = Some b ∧ sharesKey a b.

Definition allDistinct (l : list Token.t) : Prop :=
  NoDup (identityKey <$> l) ∧ NoDup (nameKey <$> l)
  ∧ NoDup (symbolKey <$> l) ∧ NoDup (logoKey <$> l).

Definition isDuplicate (d : diagnostic) : Prop :=
  violationKind d = DuplicateViolation.

(** One of the four compared fields of [t] differs from that of [p]. *)
Definition modified (t p : Token.t) : Prop :=
  Token.name t ≠ Token.name p ∨ Token.symbol t ≠ Token.symbol p
  ∨ Token.decimals t ≠ Token.decimals p ∨ Token.logoURI t ≠ Token.logoURI p.

(** [t] is [p] up to the letter case of the address. *)
Definition caseVariant (p t : Token.t) : Prop :=
  Token.chainId t = Token.chainId p
  ∧ toLowerCase (Token.address t) = toLowerCase (Token.address p)
  ∧ Token.name t = Token.name p ∧ Token.symbol t = Token.symbol p
  ∧ Token.decimals t = Token.decimals p ∧ Token.logoURI t = Token.logoURI p.

(** The identity keys of a document are pairwise distinct, as the
    address loop demands of every document it lets through. *)
Definition uniqueIdentity (tokenList : TokenList.t) : Prop :=
  NoDup (identityKey <$> TokenList.tokens tokenList).

(** The string under which the source files a record, and the map
    [previousTokens] built from a list of records. *)
Definition identityString (t : Token.t) : string :=
  chainKey (Token.chainId t) (toLowerCase (Token.address t)).

Definition keyed (key : Token.t → string) (l : list Token.t) : gmap string Token.t :=
  Map_of_entries ((λ token, (key token, token)) <$> l).

(** The body shared by the four uniqueness loops: a map of the keys seen
    so far, consulted before each insertion. *)
Definition seenBefore (key val : Token.t → string)
    (diag : Token.t → string → diagnostic)
    : gmap string string → Token.t → Proc (gmap string string) :=
  λ m token,
    match m !! key token with
    | Some other => fail (diag token other)
    | None => mret (<[key token := val token]> m)
    end.

Fixpoint dashFree (s : string) : Prop :=
  match s with
  | EmptyString => True
  | String c s' => c ≠ "-"%char ∧ dashFree s'
  end.

(** The checks that come before the probes, one by one. *)
Definition deterministicStages (validate : TokenList.t → bool)
    (Date_parse : string → Date) (tokenList : TokenList.t)
    (previousTokenList : option TokenList.t) : list (Proc unit) :=
  [ validateSchema validate tokenList;
    validateListName tokenList;
    validateKeywords tokenList;
    validateListLogoURI tokenList;
    validateTimestamp Date_parse tokenList previousTokenList;
    validateVersion tokenList previousTokenList;
    checkDuplicates tokenList;
    validateExistingTokens tokenList previousTokenList;
    validateChainIds tokenList ].

(** The diagnostics the checks before the probes can print: those of
    the comparisons with the previous document only when there is one,
    those of the probes never. *)
Definition expected (previousTokenList : option TokenList.t) (d : diagnostic) : Prop :=
  match d with
  | TimestampOlderThanPrevious | VersionNotIncremented | ExistingTokenModified _ =>
      previousTokenList ≠ None
  | InvalidLogoURI _ | LogoURIProbeFailed _ => False
  | _ => True
  end.

Definition successText : string := "Token list validation passed successfully!".

(** Running checks one after the other. *)
Definition inSequence (ps : list (Proc unit)) : Proc unit :=
  foldr (λ p q, p ;; q) (mret tt) ps.

End Vocabulary.

(** ** Sample documents *)

Module Sample.

(** A schema that accepts every document. *)
Definition acceptAll : TokenList.t → bool := λ _, true.

(** A date parser that knows two ISO strings: 18 February 2024, noon
    UTC, and 1 March 2024, midnight UTC. *)
Definition parse (text : string) : Date :=
  if bool_decide (text = "2024-02-18T12:00:00Z") then Some 1708257600000
  else if bool_decide (text = "2024-03-01T00:00:00Z") then Some 1709251200000
  else None.

(** 1 April 2024 and 18 February 2024 (midnight UTC) on the clock, with
    every logo reachable or none. *)
Definition world : World := mkWorld 1711929600000 (λ _, Some 200).
Definition offline : World := mkWorld 1711929600000 (λ _, None).
Definition earlier : World := mkWorld 1708214400000 (λ _, Some 200).

Definition foo : Token.t :=
  Token.mk "Foo" 89898 "FOO" 18 "0xAbC0000000000000000000000000000000000001"
    "https://example.org/foo.svg".

Definition fooLower : Token.t :=
  Token.mk "Foo" 89898 "FOO" 18 "0xabc0000000000000000000000000000000000001"
    "https://example.org/foo.svg".

Definition fooSix : Token.t :=
  Token.mk "Foo" 89898 "FOO" 6 "0xAbC0000000000000000000000000000000000001"
    "https://example.org/foo.svg".

Definition fooElsewhere : Token.t :=
  Token.mk "Foo" 2786 "FOO" 18 "0xAbC0000000000000000000000000000000000001"
    "https://example.org/foo.svg".

Definition bar : Token.t :=
  Token.mk "Bar" 89898 "BAR" 18 "0xabc0000000000000000000000000000000000002"
    "https://example.org/bar.svg".

Definition baz : Token.t :=
  Token.mk "Baz" 2786 "BAZ" 8 "0xabc0000000000000000000000000000000000003"
    "https://example.org/baz.svg".

Definition document (version : Version) (timestamp : string)
    (tokens : list Token.t) : TokenList.t :=
  TokenList.mk "Apertum Token List" version ["apertum"; "tokens"; "trusted"]
    REQUIRED_LIST_LOGO_URI timestamp tokens.

Definition previous : TokenList.t :=
  document (mkVersion 1 0 0) "2024-02-18T12:00:00Z" [foo; bar].

Definition candidate : TokenList.t :=
  document (mkVersion 1 0 1) "2024-03-01T00:00:00Z" [foo; bar; baz].

Definition renamed : TokenList.t :=
  TokenList.mk "Another List" (mkVersion 1 0 1) ["apertum"; "tokens"; "trusted"]
    REQUIRED_LIST_LOGO_URI "2024-03-01T00:00:00Z" [foo; bar; baz].

Definition undated : TokenList.t :=
  document (mkVersion 1 0 1) "not a date" [foo; bar; baz].

End Sample.

(** ** The previous list, read from the history *)

Section History.

Context {fold : LowerCase}.

(** What the module reads when it is loaded: the environment variables,
    the answer of a shell command ([None] when [execSync] throws) and the
    parse of a JSON text ([None] when [JSON.parse] throws; a text that
    parses is taken to hold a token list, as the cast of the source
    does). *)
Record Host : Type := mkHost {
  env : string → option string;
  execSync : string → option string;
  JSON_parse : string → option TokenList.t
}.

(** [value || fallback] on an environment variable: the fallback stands
    for an unset variable and for an empty one. *)
Definition orElse (value : option string) (fallback : string) : string :=
  match value with
  | Some text => if bool_decide (text = "") then fallback else text
  | None => fallback
  end.

(** The initialisation of [previousTokenList]: the list of the base
    branch for a pull request, of the parent commit otherwise, and
    nothing when the command or the parse throws (the [catch] is empty). *)
Definition readPreviousTokenList (h : Host) : option TokenList.t :=
  let isPR := bool_decide (env h "GITHUB_EVENT_NAME" = Some "pull_request") in
  if isPR then
    let baseRef := orElse (env h "GITHUB_BASE_REF") "main" in
    previousContent ←
      execSync h ("git show origin/" +:+ baseRef +:+ ":tokenlist/apertum-tokenlist.json");
    JSON_parse h previousContent
  else
    previousContent ← execSync h "git show HEAD^:tokenlist/apertum-tokenlist.json";
    JSON_parse h previousContent.



(** ** Vocabulary of the further properties *)

(** The record of the previous list a candidate record is compared
    with: the last one that has its identity key. *)
Definition previousRecord (previous : TokenList.t) (t : Token.t) : option Token.t :=
  last (filter (λ p, identityKey p = identityKey t) (TokenList.tokens previous)).

(** [t] is the first record of [l] whose key repeats that of a record
    before it, and [e] is that earlier record. *)
Definition firstRepeat {K} (key : Token.t → K) (l : list Token.t) (e t : Token.t) : Prop :=
  ∃ l1 l2 l3, l = l1 ++ e :: l2 ++ t :: l3
    ∧ NoDup (key <$> (l1 ++ e :: l2)) ∧ key e = key t.

(** [x] is the first element of [l] that does not satisfy [good]. *)
Definition firstOffender {A} (good : A → Prop) (l : list A) (x : A) : Prop :=
  ∃ l1 l2, l = l1 ++ x :: l2 ∧ (∀ y, y ∈ l1 → good y) ∧ ¬ good x.

Definition allowedChain (t : Token.t) : Prop :=
  Token.chainId t = 89898 ∨ Token.chainId t = 2786.

Definition reachable (w : World) (t : Token.t) : Prop :=
  network w (Token.logoURI t) = Some 200.

Definition unchanged (previous : TokenList.t) (t : Token.t) : Prop :=
  ∀ q, previousRecord previous t = Some q → ¬ modified t q.

(** The HEAD requests for the logos of a list of records, in order. *)
Definition probes (l : list Token.t) : list event :=
  (λ t, AxiosHead (Token.logoURI t)) <$> l.

(** What the probe of a record that is not reachable prints. *)
Definition probeDiagnostic (w : World) (t : Token.t) : diagnostic :=
  match network w (Token.logoURI t) with
  | Some _ => InvalidLogoURI t
  | None => LogoURIProbeFailed t
  end.

(** Every rule of the validator at once. *)
Definition acceptable (validate : TokenList.t → bool) (Date_parse : string → Date)
    (w : World) (tokenList : TokenList.t) (previousTokenList : option TokenList.t) : Prop :=
  validate tokenList = true
  ∧ TokenList.name tokenList = "Apertum Token List"
  ∧ (∀ keyword, keyword ∈ REQUIRED_KEYWORDS → keyword ∈ TokenList.keywords tokenList)
  ∧ TokenList.logoURI tokenList = REQUIRED_LIST_LOGO_URI
  ∧ ¬ timestampInFuture Date_parse w tokenList
  ∧ ¬ timestampRegressed Date_parse tokenList previousTokenList
  ∧ (∀ previous, previousTokenList = Some previous →
       Version_lt (TokenList.version previous) (TokenList.version tokenList))
  ∧ ¬ hasDuplicate (TokenList.tokens tokenList)
  ∧ (∀ previous, previousTokenList = Some previous →
       ∀ t, t ∈ TokenList.tokens tokenList → unchanged previous t)
  ∧ (∀ t, t ∈ TokenList.tokens tokenList → allowedChain t)
  ∧ (∀ t, t ∈ TokenList.tokens tokenList → reachable w t).

End History.

(** ** Further sample data *)

Module Fixture.

(** A record with the identity key of [Sample.foo] and other fields. *)
Definition fooTwin : Token.t :=
  Token.mk "Twin" 89898 "TWIN" 18 "0xabc0000000000000000000000000000000000001"
    "https://example.org/twin.svg".

(** A previous list in which two records have one identity key. *)
Definition twins : TokenList.t :=
  Sample.document (mkVersion 1 0 0) "2024-02-18T12:00:00Z" [Sample.foo; fooTwin].

(** A previous list whose timestamp is no date. *)
Definition undatedPrevious : TokenList.t :=
  Sample.document (mkVersion 1 0 0) "yesterday" [Sample.foo; Sample.bar].

(** A checkout without history: every command fails. *)
Definition noHistory : Host :=
  mkHost (λ _, None) (λ _, None) (λ _, None).

(** A pull request whose base list is [Sample.previous]; the base
    branch is whatever [GITHUB_BASE_REF] holds. *)
Definition pullRequest (baseRef : option string) : Host :=
  mkHost
    (λ name,
       if bool_decide (name = "GITHUB_EVENT_NAME") then Some "pull_request"
       else if bool_decide (name = "GITHUB_BASE_REF") then baseRef
       else None)
    (λ command,
       if bool_decide (command = "git show origin/main:tokenlist/apertum-tokenlist.json")
       then Some "{...}" else None)
    (λ text, if bool_decide (text = "{...}") then Some Sample.previous else None).

End Fixture.

(** * Properties of the validator *)

Section Properties.

Context {fold : LowerCase}.

(** ** Keys *)

Lemma string_of_uint_dashFree d : dashFree (NilEmpty.string_of_uint d).
Proof. induction d; simpl; auto. Qed.

Lemma string_of_uint_inj d d' :
  NilEmpty.string_of_uint d = NilEmpty.string_of_uint d' → d = d'.
Proof.
  intros H. apply (f_equal NilEmpty.uint_of_string) in H.
  rewrite !NilEmpty.usu in H. congruence.
Qed.

Lemma split_at_dash u1 u2 s1 s2 :
  dashFree u1 → dashFree u2 →
  u1 +:+ String "-" s1 = u2 +:+ String "-" s2 → u1 = u2 ∧ s1 = s2.
Proof.
  revert u2. induction u1 as [|c u1 IH]; intros [|c' u2]; simpl.
  - intros _ _ [= ->]. done.
  - intros _ [Hc _] [= <- _]. done.
  - intros [Hc _] _ [= -> _]. done.
  - intros [_ H1] [_ H2] [= -> H]. destruct (IH _ H1 H2 H) as [-> ->]. done.
Qed.

Lemma Z_to_int_shape n :
  ∃ d, d ≠ Decimal.Nil ∧
       Z.to_int n = (if 0 <=? n then Decimal.Pos d else Decimal.Neg d).
Proof.
  destruct n as [|p|p]; simpl.
  - exists Decimal.zero. done.
  - exists (Pos.to_uint p). split; [apply Unsigned.to_uint_nonnil | done].
  - exists (Pos.to_uint p). split; [apply Unsigned.to_uint_nonnil | done].
Qed.

Lemma NilZero_string_of_uint_nonnil d :
  d ≠ Decimal.Nil → NilZero.string_of_uint d = NilEmpty.string_of_uint d.
Proof. by destruct d. Qed.

(** The text of a number is a non-empty run of digits, after a minus
    sign when the number is negative. *)
Lemma Number_toString_shape n :
  ∃ d, d ≠ Decimal.Nil ∧ Z.to_int n = (if 0 <=? n then Decimal.Pos d else Decimal.Neg d) ∧
       Number_toString n =
         (if 0 <=? n then NilEmpty.string_of_uint d
          else String "-" (NilEmpty.string_of_uint d)).
Proof.
  destruct (Z_to_int_shape n) as (d & Hd & Hn). exists d. split; [done|]. split; [done|].
  unfold Number_toString. rewrite Hn.
  destruct (0 <=? n); simpl; by rewrite NilZero_string_of_uint_nonnil.
Qed.

Lemma chainKey_inj c1 s1 c2 s2 :
  chainKey c1 s1 = chainKey c2 s2 ↔ c1 = c2 ∧ s1 = s2.
Proof.
  split; [|by intros [-> ->]].
  unfold chainKey.
  destruct (Number_toString_shape c1) as (d1 & Hd1 & Hi1 & ->).
  destruct (Number_toString_shape c2) as (d2 & Hd2 & Hi2 & ->).
  assert (Hfin : d1 = d2 → (0 <=? c1) = (0 <=? c2) → c1 = c2).
  { intros -> Hs. apply DecimalZ.to_int_inj. rewrite Hi1, Hi2, Hs. done. }
  pose proof (string_of_uint_dashFree d1) as F1.
  pose proof (string_of_uint_dashFree d2) as F2.
  destruct (0 <=? c1) eqn:E1, (0 <=? c2) eqn:E2; simpl; intros H.
  - apply split_at_dash in H as [H ->]; [|done..].
    apply string_of_uint_inj in H. auto.
  - destruct d1; simpl in *; try done; injection H; intros; by destruct F1.
  - destruct d2; simpl in *; try done; injection H; intros; by destruct F2.
  - injection H as H. apply split_at_dash in H as [H ->]; [|done..].
    apply string_of_uint_inj in H. auto.
Qed.

(** ** Running computations *)

Lemma bind_run {A B} (m : Proc A) (k : A → Proc B) w :
  (m ≫= k) w =
    match m w with
    | (tr, Normal a) => (tr ++ (k a w).1, (k a w).2)
    | (tr, ProcessExit code) => (tr, ProcessExit code)
    end.
Proof.
  unfold mbind, Proc_mbind, Proc_bind.
  destruct (m w) as [tr [a|code]]; [|done]. by destruct (k a w).
Qed.

Lemma bind_Normal {A B} (m : Proc A) (k : A → Proc B) w a :
  m w = ([], Normal a) → (m ≫= k) w = k a w.
Proof. intros H. rewrite bind_run, H. by destruct (k a w). Qed.

Lemma bind_ProcessExit {A B} (m : Proc A) (k : A → Proc B) w tr code :
  m w = (tr, ProcessExit code) → (m ≫= k) w = (tr, ProcessExit code).
Proof. intros H. by rewrite bind_run, H. Qed.

Lemma fail_run {A} d w : fail (A:=A) d w = ([ConsoleError d], ProcessExit 1).
Proof. done. Qed.

Lemma checks_mret {A} P (a : A) : checks P (mret a).
Proof. intros w. left. by exists a. Qed.

Lemma checks_fail {A} (P : diagnostic → Prop) d : P d → checks P (fail (A:=A) d).
Proof. intros H w. right. by exists d. Qed.

Lemma checks_bind {A B} P (m : Proc A) (k : A → Proc B) :
  checks P m → (∀ a, checks P (k a)) → checks P (m ≫= k).
Proof.
  intros Hm Hk w. destruct (Hm w) as [[a Ha]|(d & Hd & Ha)].
  - rewrite (bind_Normal _ _ _ _ Ha). apply Hk.
  - right. exists d. split; [done|]. by apply bind_ProcessExit.
Qed.

Lemma checks_when P b d : P d → checks P (when b (fail d)).
Proof. intros H. destruct b; simpl; [by apply checks_fail | apply checks_mret]. Qed.

Lemma checks_forOf {A S} P (body : S → A → Proc S) l :
  (∀ s x, x ∈ l → checks P (body s x)) → ∀ s, checks P (forOf body s l).
Proof.
  induction l as [|x l IH]; intros Hb s; simpl; [apply checks_mret|].
  apply checks_bind; [apply Hb; left|].
  intros s'. apply IH. intros s'' y Hy. apply Hb. by right.
Qed.

Lemma checks_mono {A} (P Q : diagnostic → Prop) (p : Proc A) :
  (∀ d, P d → Q d) → checks P p → checks Q p.
Proof.
  intros HPQ Hp w. destruct (Hp w) as [?|(d & Hd & Hr)]; [by left|].
  right. exists d. auto.
Qed.

Lemma checks_unit P (p : Proc unit) w :
  checks P p →
  p w = ([], Normal tt) ∨ (∃ d, P d ∧ p w = ([ConsoleError d], ProcessExit 1)).
Proof. intros Hp. destruct (Hp w) as [[[] Ha]|?]; auto. Qed.

(** ** Loops *)

(** A loop of guards, [for (const x of l) { if (cond x) { error; exit } }]:
    it passes when no element meets the condition and otherwise reports
    an element that does. *)
Lemma forEach_guard {A} (body : A → Proc unit) (cond : A → bool)
    (d : A → diagnostic) (l : list A) w :
  (∀ x, body x = when (cond x) (fail (d x))) →
  (forEach body l w = ([], Normal tt) ∧ ∀ x, x ∈ l → cond x = false)
  ∨ (∃ x, x ∈ l ∧ cond x = true
          ∧ forEach body l w = ([ConsoleError (d x)], ProcessExit 1)).
Proof.
  intros Hbody. unfold forEach. induction l as [|x l IH]; simpl.
  - left. split; [done|]. intros x Hx. by apply elem_of_nil in Hx.
  - destruct (cond x) eqn:Hc.
    + right. exists x. split; [left|]. split; [done|].
      apply bind_ProcessExit. by rewrite Hbody, Hc.
    + rewrite (bind_Normal _ _ _ tt) by (by rewrite Hbody, Hc).
      destruct IH as [[Hr Hall]|(y & Hy & Hcy & Hr)].
      * left. split; [done|]. intros y [->|Hy]%elem_of_cons; auto.
      * right. exists y. split; [by right|]. done.
Qed.

Section DuplicateLoop.

Context (key val : Token.t → string) (diag : Token.t → string → diagnostic).

Lemma duplicateLoop_run (l : list Token.t) (m : gmap string string) w :
  (NoDup (key <$> l) ∧ (∀ t, t ∈ l → m !! key t = None)
   ∧ ∃ m', forOf (seenBefore key val diag) m l w = ([], Normal m'))
  ∨ (¬ (NoDup (key <$> l) ∧ ∀ t, t ∈ l → m !! key t = None)
     ∧ ∃ t other, t ∈ l
         ∧ forOf (seenBefore key val diag) m l w = ([ConsoleError (diag t other)], ProcessExit 1)).
Proof.
  revert m. induction l as [|t l IH]; intros m; simpl.
  - left. split; [constructor|]. split; [|by eexists].
    intros t Ht. by apply elem_of_nil in Ht.
  - destruct (m !! key t) as [other|] eqn:Hm.
    + right. split.
      * intros [_ Hfresh]. specialize (Hfresh t (list_elem_of_here _ _)). congruence.
      * exists t, other. split; [left|]. apply bind_ProcessExit.
        unfold seenBefore. by rewrite Hm.
    + rewrite (bind_Normal _ _ _ (<[key t := val t]> m))
        by (unfold seenBefore; by rewrite Hm).
      destruct (IH (<[key t := val t]> m)) as [(Hnd & Hfresh & Hr)|(Hno & t' & o & Ht' & Hr)].
      * left. split; [|split; [|done]].
        -- apply NoDup_cons. split; [|done].
           intros (t' & Hk & Ht')%list_elem_of_fmap.
           specialize (Hfresh t' Ht'). rewrite <- Hk, lookup_insert_eq in Hfresh. done.
        -- intros t' [->|Ht']%elem_of_cons; [done|].
           specialize (Hfresh t' Ht').
           destruct (decide (key t = key t')) as [E|E].
           ++ rewrite E, lookup_insert_eq in Hfresh. done.
           ++ by rewrite lookup_insert_ne in Hfresh.
      * right. split; [|exists t', o; split; [by right|done]].
        intros [[Hnotin Hnd]%NoDup_cons Hfresh]. apply Hno. split; [done|].
        intros t'' Ht''. rewrite lookup_insert_ne.
        -- apply Hfresh. by right.
        -- intros E. apply Hnotin. rewrite E. apply list_elem_of_fmap. eauto.
Qed.

(** From the empty map the loop passes exactly when the keys are
    pairwise distinct. *)
Lemma duplicateLoop_spec (l : list Token.t) w :
  (NoDup (key <$> l) ∧ (forOf (seenBefore key val diag) ∅ l ;; mret tt) w = ([], Normal tt))
  ∨ (¬ NoDup (key <$> l)
     ∧ ∃ t other, t ∈ l
         ∧ (forOf (seenBefore key val diag) ∅ l ;; mret tt) w
           = ([ConsoleError (diag t other)], ProcessExit 1)).
Proof.
  destruct (duplicateLoop_run l ∅ w) as [(Hnd & _ & m' & Hr)|(Hno & t & o & Ht & Hr)].
  - left. split; [done|]. by rewrite (bind_Normal _ _ _ _ Hr).
  - right. split.
    + intros Hnd. apply Hno. split; [done|]. intros. apply lookup_empty.
    + exists t, o. split; [done|]. by apply bind_ProcessExit.
Qed.

End DuplicateLoop.

(** ** Two records sharing a key *)

Lemma not_NoDup_fmap {A B} `{EqDecision B} (f : A → B) (l : list A) :
  ¬ NoDup (f <$> l)
  ↔ ∃ i j a b, i ≠ j ∧ l !! i = Some a ∧ l !! j = Some b ∧ f a = f b.
Proof.
  split.
  - induction l as [|a l IH]; simpl; intros Hno.
    + destruct Hno. constructor.
    + destruct (decide (f a ∈ f <$> l)) as [Hin|Hnotin].
      * apply list_elem_of_fmap in Hin as (b & Hab & Hb).
        apply list_elem_of_lookup in Hb as [j Hj].
        exists 0%nat, (S j), a, b. done.
      * destruct IH as (i & j & x & y & Hij & Hi & Hj & Hxy).
        { intros Hnd. apply Hno. by apply NoDup_cons. }
        exists (S i), (S j), x, y. split; [lia|done].
  - intros (i & j & a & b & Hij & Hi & Hj & Hab) Hnd.
    apply Hij. eapply NoDup_alt; [exact Hnd| |].
    + rewrite list_lookup_fmap, Hi. reflexivity.
    + rewrite list_lookup_fmap, Hj, Hab. reflexivity.
Qed.

Lemma NoDup_chainKey (f : Token.t → string) (l : list Token.t) :
  NoDup ((λ t, chainKey (Token.chainId t) (f t)) <$> l)
  ↔ NoDup ((λ t, (Token.chainId t, f t)) <$> l).
Proof.
  assert (Inj (=) (=) (λ p : Z * string, chainKey p.1 p.2)) as Hinj.
  { intros [c1 s1] [c2 s2] H. simpl in H. apply chainKey_inj in H as [-> ->]. done. }
  rewrite <- (NoDup_fmap (λ p : Z * string, chainKey p.1 p.2)).
  by rewrite <- list_fmap_compose.
Qed.

Lemma hasDuplicate_iff l : hasDuplicate l ↔ ¬ allDistinct l.
Proof.
  unfold hasDuplicate, allDistinct, sharesKey. split.
  - intros (i & j & a & b & Hij & Hi & Hj & Hs) (H1 & H2 & H3 & H4).
    destruct Hs as [E|[E|[E|E]]];
      [eapply (not_NoDup_fmap identityKey) | eapply (not_NoDup_fmap nameKey)
       | eapply (not_NoDup_fmap symbolKey) | eapply (not_NoDup_fmap logoKey)];
      eauto 10.
  - intros Hno.
    destruct (decide (NoDup (identityKey <$> l))) as [H1|H1];
      [|apply not_NoDup_fmap in H1 as (i & j & a & b & ? & ? & ? & ?); eauto 12].
    destruct (decide (NoDup (nameKey <$> l))) as [H2|H2];
      [|apply not_NoDup_fmap in H2 as (i & j & a & b & ? & ? & ? & ?); eauto 12].
    destruct (decide (NoDup (symbolKey <$> l))) as [H3|H3];
      [|apply not_NoDup_fmap in H3 as (i & j & a & b & ? & ? & ? & ?); eauto 12].
    destruct (decide (NoDup (logoKey <$> l))) as [H4|H4];
      [|apply not_NoDup_fmap in H4 as (i & j & a & b & ? & ? & ? & ?); eauto 12].
    destruct Hno. done.
Qed.

Lemma checkDuplicateAddresses_run tokenList w :
  (NoDup (identityKey <$> TokenList.tokens tokenList)
   ∧ passes (checkDuplicateAddresses tokenList) w)
  ∨ (¬ NoDup (identityKey <$> TokenList.tokens tokenList)
     ∧ ∃ t, t ∈ TokenList.tokens tokenList
          ∧ failsWith (checkDuplicateAddresses tokenList) w (DuplicateAddress t)).
Proof.
  unfold identityKey. rewrite <- (NoDup_chainKey (λ t, toLowerCase (Token.address t))).
  destruct (duplicateLoop_spec
              (λ t, chainKey (Token.chainId t) (toLowerCase (Token.address t)))
              Token.symbol (λ t _, DuplicateAddress t) (TokenList.tokens tokenList) w)
    as [[Hnd Hr]|(Hno & t & o & Ht & Hr)]; [left|right]; eauto.
Qed.

Lemma checkDuplicateNames_run tokenList w :
  (NoDup (nameKey <$> TokenList.tokens tokenList)
   ∧ passes (checkDuplicateNames tokenList) w)
  ∨ (¬ NoDup (nameKey <$> TokenList.tokens tokenList)
     ∧ ∃ t other, t ∈ TokenList.tokens tokenList
          ∧ failsWith (checkDuplicateNames tokenList) w (DuplicateName t other)).
Proof.
  unfold nameKey. rewrite <- (NoDup_chainKey (λ t, toLowerCase (Token.name t))).
  destruct (duplicateLoop_spec
              (λ t, chainKey (Token.chainId t) (toLowerCase (Token.name t)))
              Token.symbol DuplicateName (TokenList.tokens tokenList) w)
    as [[Hnd Hr]|(Hno & t & o & Ht & Hr)]; [left|right]; eauto.
Qed.

Lemma checkDuplicateSymbols_run tokenList w :
  (NoDup (symbolKey <$> TokenList.tokens tokenList)
   ∧ passes (checkDuplicateSymbols tokenList) w)
  ∨ (¬ NoDup (symbolKey <$> TokenList.tokens tokenList)
     ∧ ∃ t other, t ∈ TokenList.tokens tokenList
          ∧ failsWith (checkDuplicateSymbols tokenList) w (DuplicateSymbol t other)).
Proof.
  unfold symbolKey. rewrite <- (NoDup_chainKey (λ t, toLowerCase (Token.symbol t))).
  destruct (duplicateLoop_spec
              (λ t, chainKey (Token.chainId t) (toLowerCase (Token.symbol t)))
              Token.name DuplicateSymbol (TokenList.tokens tokenList) w)
    as [[Hnd Hr]|(Hno & t & o & Ht & Hr)]; [left|right]; eauto.
Qed.

Lemma checkDuplicateLogoURIs_run tokenList w :
  (NoDup (logoKey <$> TokenList.tokens tokenList)
   ∧ passes (checkDuplicateLogoURIs tokenList) w)
  ∨ (¬ NoDup (logoKey <$> TokenList.tokens tokenList)
     ∧ ∃ t other, t ∈ TokenList.tokens tokenList
          ∧ failsWith (checkDuplicateLogoURIs tokenList) w (DuplicateLogoURI t other)).
Proof.
  unfold logoKey. rewrite <- (NoDup_chainKey Token.logoURI).
  destruct (duplicateLoop_spec
              (λ t, chainKey (Token.chainId t) (Token.logoURI t))
              Token.symbol DuplicateLogoURI (TokenList.tokens tokenList) w)
    as [[Hnd Hr]|(Hno & t & o & Ht & Hr)]; [left|right]; eauto.
Qed.

Lemma checkDuplicates_run tokenList w :
  (allDistinct (TokenList.tokens tokenList) ∧ passes (checkDuplicates tokenList) w)
  ∨ (¬ allDistinct (TokenList.tokens tokenList)
     ∧ ∃ d, isDuplicate d ∧ failsWith (checkDuplicates tokenList) w d).
Proof.
  unfold allDistinct, checkDuplicates, passes, failsWith.
  destruct (checkDuplicateAddresses_run tokenList w) as [[H1 R1]|(H1 & t & _ & R1)];
    [rewrite (bind_Normal _ _ _ _ R1)
    |right; split; [tauto|]; eexists; split; [|by apply bind_ProcessExit]; done].
  destruct (checkDuplicateNames_run tokenList w) as [[H2 R2]|(H2 & t & o & _ & R2)];
    [rewrite (bind_Normal _ _ _ _ R2)
    |right; split; [tauto|]; eexists; split; [|by apply bind_ProcessExit]; done].
  destruct (checkDuplicateSymbols_run tokenList w) as [[H3 R3]|(H3 & t & o & _ & R3)];
    [rewrite (bind_Normal _ _ _ _ R3)
    |right; split; [tauto|]; eexists; split; [|by apply bind_ProcessExit]; done].
  destruct (checkDuplicateLogoURIs_run tokenList w) as [[H4 R4]|(H4 & t & o & _ & R4)];
    [left; tauto | right; split; [tauto|]; eexists; split; [|exact R4]; done].
Qed.

(** ** The map of the previous records *)

Lemma Map_of_entries_snoc {V} (l : list (string * V)) k v :
  Map_of_entries (l ++ [(k, v)]) = <[k := v]> (Map_of_entries l).
Proof. unfold Map_of_entries. by rewrite foldl_app. Qed.

Section PreviousTokens.

Context (key : Token.t → string).

Lemma keyed_nil : keyed key [] = ∅.
Proof. done. Qed.

Lemma keyed_snoc l t : keyed key (l ++ [t]) = <[key t := t]> (keyed key l).
Proof. unfold keyed. rewrite fmap_app. simpl. apply Map_of_entries_snoc. Qed.

(** What the map holds under a key is a record of the list with that key. *)
Lemma keyed_lookup_Some l k p : keyed key l !! k = Some p → p ∈ l ∧ key p = k.
Proof.
  induction l as [|t l IH] using rev_ind; [by rewrite keyed_nil, lookup_empty|].
  rewrite keyed_snoc. destruct (decide (key t = k)) as [<-|Hne].
  - rewrite lookup_insert_eq. intros [= ->]. split; [|done].
    apply elem_of_app. right. left.
  - rewrite lookup_insert_ne by done. intros [Hp Hk]%IH. split; [|done].
    apply elem_of_app. by left.
Qed.

(** It is the last such record. *)
Lemma keyed_lookup_last l1 p l2 :
  key p ∉ key <$> l2 → keyed key (l1 ++ p :: l2) !! key p = Some p.
Proof.
  induction l2 as [|t l2 IH] using rev_ind; intros Hnotin.
  - by rewrite keyed_snoc, lookup_insert_eq.
  - rewrite fmap_app in Hnotin. apply not_elem_of_app in Hnotin as [H2 Ht].
    replace (l1 ++ p :: l2 ++ [t]) with ((l1 ++ p :: l2) ++ [t])
      by (by rewrite <- app_assoc).
    rewrite keyed_snoc, lookup_insert_ne; [by apply IH|].
    intros E. apply Ht. rewrite <- E. simpl. left.
Qed.

Lemma keyed_lookup_None l k : keyed key l !! k = None ↔ k ∉ key <$> l.
Proof.
  induction l as [|t l IH] using rev_ind.
  - rewrite keyed_nil. split; [intros _ H; by apply elem_of_nil in H | intros; apply lookup_empty].
  - rewrite keyed_snoc, fmap_app, not_elem_of_app. simpl.
    destruct (decide (key t = k)) as [<-|Hne].
    + rewrite lookup_insert_eq. split; [done|]. intros [_ []]. left.
    + rewrite lookup_insert_ne by done. rewrite IH. split; [|tauto].
      intros H. split; [done|]. intros [E|E]%elem_of_cons; [done|].
      by apply elem_of_nil in E.
Qed.

(** When the keys of the list are pairwise distinct, the map holds
    every record under its key. *)
Lemma keyed_lookup_NoDup l k p :
  NoDup (key <$> l) → keyed key l !! k = Some p ↔ p ∈ l ∧ key p = k.
Proof.
  intros Hnd. split; [apply keyed_lookup_Some|]. intros [Hp <-].
  apply list_elem_of_split in Hp as (l1 & l2 & ->).
  apply keyed_lookup_last.
  rewrite fmap_app, fmap_cons in Hnd.
  apply NoDup_app in Hnd as (_ & _ & Hnd). by apply NoDup_cons in Hnd as [? _].
Qed.

End PreviousTokens.

(** ** Comparison with the previous list *)

Lemma identityString_eq a b : identityString a = identityString b ↔ identityKey a = identityKey b.
Proof.
  unfold identityString, identityKey. rewrite chainKey_inj.
  split; [by intros [-> ->] | by intros [= -> ->]].
Qed.

Lemma modified_decide t p :
  bool_decide (Token.name t ≠ Token.name p)
  || bool_decide (Token.symbol t ≠ Token.symbol p)
  || bool_decide (Token.decimals t ≠ Token.decimals p)
  || bool_decide (Token.logoURI t ≠ Token.logoURI p) = true ↔ modified t p.
Proof.
  unfold modified. rewrite !orb_true_iff, !bool_decide_eq_true. tauto.
Qed.

Lemma validateExistingTokens_run tokenList previous w :
  (passes (validateExistingTokens tokenList (Some previous)) w
   ∧ ∀ t p, t ∈ TokenList.tokens tokenList →
            keyed identityString (TokenList.tokens previous) !! identityString t = Some p →
            ¬ modified t p)
  ∨ (∃ t p, t ∈ TokenList.tokens tokenList
       ∧ keyed identityString (TokenList.tokens previous) !! identityString t = Some p
       ∧ modified t p
       ∧ failsWith (validateExistingTokens tokenList (Some previous)) w
           (ExistingTokenModified t)).
Proof.
  set (previousTokens := keyed identityString (TokenList.tokens previous)).
  set (cond := λ t,
         match previousTokens !! identityString t with
         | Some p =>
             bool_decide (Token.name t ≠ Token.name p)
             || bool_decide (Token.symbol t ≠ Token.symbol p)
             || bool_decide (Token.decimals t ≠ Token.decimals p)
             || bool_decide (Token.logoURI t ≠ Token.logoURI p)
         | None => false
         end).
  unfold passes, failsWith, validateExistingTokens.
  match goal with |- context [forEach ?b _ w] => set (body := b) end.
  destruct (forEach_guard body cond ExistingTokenModified (TokenList.tokens tokenList) w)
    as [[Hr Hall]|(t & Ht & Hc & Hr)].
  - intros t. subst body cond previousTokens. simpl.
    unfold keyed, identityString. by destruct (_ !! _).
  - left. split; [done|]. intros t p Ht Hp Hm.
    specialize (Hall t Ht). unfold cond in Hall. rewrite Hp in Hall.
    apply modified_decide in Hm. congruence.
  - right. unfold cond in Hc.
    destruct (previousTokens !! identityString t) as [p|] eqn:Hp; [|done].
    exists t, p. by rewrite <- modified_decide.
Qed.

(** ** What each check can print *)

Create HintDb checks.
#[local] Hint Resolve checks_mret checks_fail checks_when : checks.

Lemma validateSchema_checks (P : diagnostic → Prop) validate tokenList :
  P SchemaValidationFailed → checks P (validateSchema validate tokenList).
Proof. unfold validateSchema. auto with checks. Qed.

Lemma validateListName_checks (P : diagnostic → Prop) tokenList :
  P ListNameChanged → checks P (validateListName tokenList).
Proof. unfold validateListName. auto with checks. Qed.

Lemma validateKeywords_checks (P : diagnostic → Prop) tokenList :
  P KeywordsChanged → checks P (validateKeywords tokenList).
Proof. unfold validateKeywords. auto with checks. Qed.

Lemma validateListLogoURI_checks (P : diagnostic → Prop) tokenList :
  P ListLogoURIChanged → checks P (validateListLogoURI tokenList).
Proof. unfold validateListLogoURI. auto with checks. Qed.

Lemma validateTimestamp_checks (P : diagnostic → Prop) Date_parse tokenList previous :
  P TimestampInFuture → (previous ≠ None → P TimestampOlderThanPrevious) →
  checks P (validateTimestamp Date_parse tokenList previous).
Proof.
  intros H1 H2. unfold validateTimestamp.
  apply checks_bind; [intros w; left; by eexists|]. intros now.
  apply checks_bind; [auto with checks|]. intros _.
  destruct previous; auto with checks.
Qed.

Lemma validateVersion_checks (P : diagnostic → Prop) tokenList previous :
  (previous ≠ None → P VersionNotIncremented) →
  checks P (validateVersion tokenList previous).
Proof. intros H. unfold validateVersion. destruct previous; auto with checks. Qed.

Lemma seenBefore_checks (P : diagnostic → Prop) key val diag l m :
  (∀ t other, P (diag t other)) →
  checks P (forOf (seenBefore key val diag) m l ;; mret tt).
Proof.
  intros H. apply checks_bind; [|auto with checks].
  apply checks_forOf. intros s t _. unfold seenBefore.
  destruct (s !! key t); auto with checks.
Qed.

Lemma checkDuplicates_checks (P : diagnostic → Prop) tokenList :
  (∀ d, isDuplicate d → P d) → checks P (checkDuplicates tokenList).
Proof.
  intros H. unfold checkDuplicates.
  apply checks_bind; [|intros _; apply checks_bind; [|intros _; apply checks_bind; [|intros _]]].
  - apply (seenBefore_checks P _ Token.symbol (λ t _, DuplicateAddress t)).
    intros. by apply H.
  - apply (seenBefore_checks P _ Token.symbol DuplicateName). intros. by apply H.
  - apply (seenBefore_checks P _ Token.name DuplicateSymbol). intros. by apply H.
  - apply (seenBefore_checks P _ Token.symbol DuplicateLogoURI). intros. by apply H.
Qed.

Lemma validateExistingTokens_checks (P : diagnostic → Prop) tokenList previous :
  (previous ≠ None → ∀ t, P (ExistingTokenModified t)) →
  checks P (validateExistingTokens tokenList previous).
Proof.
  intros H. unfold validateExistingTokens, forEach.
  destruct previous as [prev|]; [|auto with checks].
  apply checks_forOf. intros _ t _. simpl.
  destruct (_ !! _); auto with checks.
Qed.

Lemma validateChainIds_checks (P : diagnostic → Prop) tokenList :
  (∀ t, P (InvalidChainId t)) → checks P (validateChainIds tokenList).
Proof.
  intros H. unfold validateChainIds, forEach.
  apply checks_forOf. intros _ t _. auto with checks.
Qed.

Lemma deterministicStages_checks validate Date_parse tokenList previous stage :
  stage ∈ deterministicStages validate Date_parse tokenList previous →
  checks (expected previous) stage.
Proof.
  unfold deterministicStages. rewrite !elem_of_cons, elem_of_nil.
  intros [->|[->|[->|[->|[->|[->|[->|[->|[->|[]]]]]]]]]].
  - by apply validateSchema_checks.
  - by apply validateListName_checks.
  - by apply validateKeywords_checks.
  - by apply validateListLogoURI_checks.
  - by apply validateTimestamp_checks.
  - by apply validateVersion_checks.
  - apply checkDuplicates_checks. by intros [].
  - by apply validateExistingTokens_checks.
  - by apply validateChainIds_checks.
Qed.

(** ** Checks in sequence *)

Lemma bind_mret_unit (p : Proc unit) w : (p ;; mret tt) w = p w.
Proof.
  rewrite bind_run. destruct (p w) as [tr [[]|code]]; [|done].
  simpl. by rewrite app_nil_r.
Qed.

Lemma bind_ext {A B} (m : Proc A) (k k' : A → Proc B) w :
  (∀ a, k a w = k' a w) → (m ≫= k) w = (m ≫= k') w.
Proof.
  intros H. rewrite !bind_run. destruct (m w) as [tr [a|code]]; [|done].
  by rewrite H.
Qed.

Lemma deterministicChecks_inSequence validate Date_parse tokenList previous w :
  deterministicChecks validate Date_parse tokenList previous w
  = inSequence (deterministicStages validate Date_parse tokenList previous) w.
Proof.
  unfold deterministicChecks, deterministicStages, inSequence. simpl.
  repeat (apply bind_ext; intros _). symmetry. apply bind_mret_unit.
Qed.

Section Sequence.

Context (P : diagnostic → Prop) (w : World).

(** A sequence of checks passes when each of them does; otherwise it
    fails as its first failing check does. *)
Lemma inSequence_run (ps : list (Proc unit)) :
  (∀ p, p ∈ ps → checks P p) →
  (passes (inSequence ps) w ∧ ∀ p, p ∈ ps → passes p w)
  ∨ (∃ p d, p ∈ ps ∧ P d ∧ failsWith p w d ∧ failsWith (inSequence ps) w d).
Proof.
  unfold passes, failsWith.
  induction ps as [|p ps IH]; intros Hps; simpl.
  - left. split; [done|]. intros p Hp. by apply elem_of_nil in Hp.
  - destruct (checks_unit P p w) as [Hp|(d & Hd & Hp)]; [apply Hps; left|..].
    + rewrite (bind_Normal _ _ _ _ Hp).
      destruct IH as [[Hr Hall]|(q & d & Hq & Hd & Hqd & Hr)].
      { intros q Hq. apply Hps. by right. }
      * left. split; [done|]. intros q [->|Hq]%elem_of_cons; auto.
      * right. exists q, d. split; [by right|]. done.
    + right. exists p, d. split; [left|]. split; [done|]. split; [done|].
      by apply bind_ProcessExit.
Qed.

Lemma inSequence_fails (ps : list (Proc unit)) :
  (∀ p, p ∈ ps → checks P p) →
  (∃ p d, p ∈ ps ∧ failsWith p w d) → ∃ d, P d ∧ failsWith (inSequence ps) w d.
Proof.
  intros Hps (p & d & Hp & Hpd).
  destruct (inSequence_run ps Hps) as [[_ Hall]|(q & d' & _ & Hd' & _ & Hr)]; [|eauto].
  specialize (Hall p Hp). unfold passes, failsWith in *. congruence.
Qed.

End Sequence.

(** ** The probes *)

Lemma validateLogoURIs_run tokenList w :
  ∃ uris,
    validateLogoURIs tokenList w = (AxiosHead <$> uris, Normal tt)
    ∨ ∃ d, violationKind d = UnreachableLogoViolation
         ∧ validateLogoURIs tokenList w
           = ((AxiosHead <$> uris) ++ [ConsoleError d], ProcessExit 1).
Proof.
  unfold validateLogoURIs, forEach.
  induction (TokenList.tokens tokenList) as [|t l IH]; simpl.
  - exists []. by left.
  - destruct IH as [uris IH]. rewrite !bind_run. simpl.
    destruct (network w (Token.logoURI t)) as [status|] eqn:Hn; simpl.
    + destruct (bool_decide (status ≠ 200)); simpl.
      * exists [Token.logoURI t]. right. by exists (InvalidLogoURI t).
      * exists (Token.logoURI t :: uris).
        destruct IH as [->|(d & Hd & ->)]; [by left|right]. by exists d.
    + exists [Token.logoURI t]. right. by exists (LogoURIProbeFailed t).
Qed.

(** ** The whole run *)

Lemma deterministicChecks_run validate Date_parse tokenList previous w :
  let stages := deterministicStages validate Date_parse tokenList previous in
  (passes (deterministicChecks validate Date_parse tokenList previous) w
   ∧ ∀ stage, stage ∈ stages → passes stage w)
  ∨ (∃ stage d, stage ∈ stages ∧ expected previous d ∧ failsWith stage w d
       ∧ failsWith (deterministicChecks validate Date_parse tokenList previous) w d).
Proof.
  intros stages. unfold passes at 1, failsWith at 2.
  rewrite deterministicChecks_inSequence.
  apply (inSequence_run (expected previous)).
  apply deterministicStages_checks.
Qed.

Lemma validateTokenList_run validate Date_parse tokenList previous w :
  (∃ d, expected previous d
      ∧ failsWith (deterministicChecks validate Date_parse tokenList previous) w d
      ∧ validateTokenList validate Date_parse tokenList previous w
        = ([ConsoleError d], ProcessExit 1))
  ∨ (passes (deterministicChecks validate Date_parse tokenList previous) w
     ∧ ∃ uris,
         validateTokenList validate Date_parse tokenList previous w
         = ((AxiosHead <$> uris) ++ [ConsoleLog successText], Normal tt)
         ∨ ∃ d, violationKind d = UnreachableLogoViolation
              ∧ validateTokenList validate Date_parse tokenList previous w
                = ((AxiosHead <$> uris) ++ [ConsoleError d], ProcessExit 1)).
Proof.
  unfold validateTokenList.
  destruct (deterministicChecks_run validate Date_parse tokenList previous w)
    as [[Hr _]|(_ & d & _ & Hd & _ & Hr)].
  - right. split; [done|]. rewrite (bind_Normal _ _ _ _ Hr).
    destruct (validateLogoURIs_run tokenList w) as [uris [Hl|(d & Hd & Hl)]];
      exists uris; [left|right].
    + rewrite bind_run, Hl. done.
    + exists d. split; [done|]. by apply bind_ProcessExit.
  - left. exists d. split; [done|]. split; [done|]. by apply bind_ProcessExit.
Qed.

(** ** What a run reads of the world *)

Create HintDb clock.

Lemma clockOnly_mret {A} (a : A) : clockOnly (mret a).
Proof. by intros w1 w2 _. Qed.

Lemma clockOnly_fail {A} d : clockOnly (fail (A:=A) d).
Proof. by intros w1 w2 _. Qed.

Lemma clockOnly_Date_now : clockOnly Date_now.
Proof. intros w1 w2 H. unfold Date_now. by rewrite H. Qed.

Lemma clockOnly_bind {A B} (m : Proc A) (k : A → Proc B) :
  clockOnly m → (∀ a, clockOnly (k a)) → clockOnly (m ≫= k).
Proof.
  intros Hm Hk w1 w2 H. rewrite !bind_run, (Hm w1 w2 H).
  destruct (m w2) as [tr [a|code]]; [|done]. by rewrite (Hk a w1 w2 H).
Qed.

Lemma clockOnly_when b p : clockOnly p → clockOnly (when b p).
Proof. intros H. destruct b; [done|apply clockOnly_mret]. Qed.

Lemma clockOnly_forOf {A S} (body : S → A → Proc S) l :
  (∀ s x, clockOnly (body s x)) → ∀ s, clockOnly (forOf body s l).
Proof.
  intros Hb. induction l as [|x l IH]; intros s; simpl; [apply clockOnly_mret|].
  apply clockOnly_bind; auto.
Qed.

#[local] Hint Resolve clockOnly_mret clockOnly_fail clockOnly_Date_now
  clockOnly_when : clock.

Lemma seenBefore_clockOnly key val diag l m :
  clockOnly (forOf (seenBefore key val diag) m l ;; mret tt).
Proof.
  apply clockOnly_bind; [|auto with clock].
  apply clockOnly_forOf. intros s t. unfold seenBefore.
  destruct (s !! key t); auto with clock.
Qed.

Lemma deterministicStages_clockOnly validate Date_parse tokenList previous stage :
  stage ∈ deterministicStages validate Date_parse tokenList previous →
  clockOnly stage.
Proof.
  unfold deterministicStages. rewrite !elem_of_cons, elem_of_nil.
  intros [->|[->|[->|[->|[->|[->|[->|[->|[->|[]]]]]]]]]].
  - unfold validateSchema. auto with clock.
  - unfold validateListName. auto with clock.
  - unfold validateKeywords. auto with clock.
  - unfold validateListLogoURI. auto with clock.
  - unfold validateTimestamp.
    apply clockOnly_bind; [auto with clock|]. intros now.
    apply clockOnly_bind; [auto with clock|]. intros _.
    destruct previous; auto with clock.
  - unfold validateVersion. destruct previous; auto with clock.
  - unfold checkDuplicates.
    apply clockOnly_bind;
      [|intros _; apply clockOnly_bind; [|intros _; apply clockOnly_bind; [|intros _]]].
    + apply (seenBefore_clockOnly _ Token.symbol (λ t _, DuplicateAddress t)).
    + apply (seenBefore_clockOnly _ Token.symbol DuplicateName).
    + apply (seenBefore_clockOnly _ Token.name DuplicateSymbol).
    + apply (seenBefore_clockOnly _ Token.symbol DuplicateLogoURI).
  - unfold validateExistingTokens, forEach.
    destruct previous as [prev|]; [|auto with clock].
    apply clockOnly_forOf. intros _ t. simpl. destruct (_ !! _); auto with clock.
  - unfold validateChainIds, forEach.
    apply clockOnly_forOf. intros _ t. auto with clock.
Qed.

Lemma inSequence_clockOnly (ps : list (Proc unit)) :
  (∀ p, p ∈ ps → clockOnly p) → clockOnly (inSequence ps).
Proof.
  induction ps as [|p ps IH]; intros H; simpl; [apply clockOnly_mret|].
  apply clockOnly_bind; [apply H; left|]. intros _. apply IH.
  intros q Hq. apply H. by right.
Qed.

(** ** The version check *)

Lemma Version_lt_decide (a b : Version) :
  (major b <? major a)
  || ((major b =? major a) && (minor b <? minor a))
  || ((major b =? major a) && (minor b =? minor a) && (patch b <=? patch a)) = false
  ↔ Version_lt a b.
Proof.
  unfold Version_lt.
  rewrite !orb_false_iff, !andb_false_iff, !Z.ltb_ge, !Z.eqb_neq, Z.leb_gt. lia.
Qed.

(** C2. With a previous document, the version check passes exactly when
    the previous triple [(major, minor, patch)] is strictly below the
    candidate's in lexicographic order, and fails with the diagnostic of
    a version that was not incremented (a [VersionViolation]) exactly
    when it is not. *)
Theorem version_check w tokenList previous :
  (passes (validateVersion tokenList (Some previous)) w
   ↔ Version_lt (TokenList.version previous) (TokenList.version tokenList))
  ∧ (failsWith (validateVersion tokenList (Some previous)) w VersionNotIncremented
     ↔ ¬ Version_lt (TokenList.version previous) (TokenList.version tokenList))
  ∧ violationKind VersionNotIncremented = VersionViolation.
Proof.
  unfold passes, failsWith, validateVersion.
  rewrite <- Version_lt_decide.
  destruct (_ || _ || _); simpl; rewrite ?fail_run; unfold mret, Proc_mret, Proc_ret;
    split_and!; try done; split; intros; try done; congruence.
Qed.

Example version_1_0_0_after_1_0_0 w ts ts' l l' :
  failsWith (validateVersion (Sample.document (mkVersion 1 0 0) ts l)
               (Some (Sample.document (mkVersion 1 0 0) ts' l'))) w VersionNotIncremented.
Proof. reflexivity. Qed.

Example version_0_9_9_after_1_0_0 w ts ts' l l' :
  failsWith (validateVersion (Sample.document (mkVersion 0 9 9) ts l)
               (Some (Sample.document (mkVersion 1 0 0) ts' l'))) w VersionNotIncremented.
Proof. reflexivity. Qed.

Example version_1_0_1_after_1_0_0 w ts ts' l l' :
  passes (validateVersion (Sample.document (mkVersion 1 0 1) ts l)
            (Some (Sample.document (mkVersion 1 0 0) ts' l'))) w.
Proof. reflexivity. Qed.

Example version_1_1_0_after_1_0_0 w ts ts' l l' :
  passes (validateVersion (Sample.document (mkVersion 1 1 0) ts l)
            (Some (Sample.document (mkVersion 1 0 0) ts' l'))) w.
Proof. reflexivity. Qed.

(** ** The timestamp check *)

Lemma Date_lt_before a b : Date_lt a b = true ↔ Date_before a b.
Proof.
  unfold Date_lt, Date_before. destruct a as [x|], b as [y|].
  - rewrite Z.ltb_lt. split; [by exists x, y|]. by intros (? & ? & [= <-] & [= <-] & ?).
  - split; [done|]. by intros (? & ? & _ & ? & _).
  - split; [done|]. by intros (? & ? & ? & _).
  - split; [done|]. by intros (? & ? & ? & _).
Qed.

Lemma validateTimestamp_run Date_parse tokenList previousTokenList w :
  validateTimestamp Date_parse tokenList previousTokenList w =
    if Date_gt (Date_parse (TokenList.timestamp tokenList)) (Some (clock w))
    then ([ConsoleError TimestampInFuture], ProcessExit 1)
    else match previousTokenList with
         | Some previous =>
             if Date_lt (Date_parse (TokenList.timestamp tokenList))
                  (Date_parse (TokenList.timestamp previous))
             then ([ConsoleError TimestampOlderThanPrevious], ProcessExit 1)
             else ([], Normal tt)
         | None => ([], Normal tt)
         end.
Proof.
  unfold validateTimestamp.
  rewrite (bind_Normal _ _ _ (Some (clock w))) by done.
  destruct (Date_gt _ (Some (clock w))) eqn:E.
  - by apply bind_ProcessExit.
  - rewrite (bind_Normal _ _ _ tt) by done.
    destruct previousTokenList as [previous|]; [|done].
    by destruct (Date_lt _ _).
Qed.

Lemma validateTimestamp_cases Date_parse tokenList previousTokenList w :
  ∃ f r : bool,
    (f = true ↔ timestampInFuture Date_parse w tokenList)
    ∧ (r = true ↔ timestampRegressed Date_parse tokenList previousTokenList)
    ∧ validateTimestamp Date_parse tokenList previousTokenList w
      = if f then ([ConsoleError TimestampInFuture], ProcessExit 1)
        else if r then ([ConsoleError TimestampOlderThanPrevious], ProcessExit 1)
        else ([], Normal tt).
Proof.
  exists (Date_gt (Date_parse (TokenList.timestamp tokenList)) (Some (clock w))).
  exists (match previousTokenList with
          | Some previous =>
              Date_lt (Date_parse (TokenList.timestamp tokenList))
                (Date_parse (TokenList.timestamp previous))
          | None => false
          end).
  split; [apply Date_lt_before|]. split.
  - unfold timestampRegressed. destruct previousTokenList as [previous|].
    + rewrite Date_lt_before. split; [by exists previous|]. by intros (p & [= <-] & ?).
    + split; [done|]. by intros (? & ? & _).
  - rewrite validateTimestamp_run. by destruct previousTokenList.
Qed.

(** C4. The timestamp check fails with a [TimestampViolation] exactly
    when the candidate's timestamp is strictly after the time on the
    clock or, a previous document being there, strictly before that
    document's timestamp, and passes otherwise. A timestamp in the future
    fails whatever the previous document; a timestamp equal to the
    previous one passes unless it is in the future. *)
Theorem timestamp_check Date_parse w tokenList previousTokenList :
  (failsWith (validateTimestamp Date_parse tokenList previousTokenList) w TimestampInFuture
   ↔ timestampInFuture Date_parse w tokenList)
  ∧ (failsWith (validateTimestamp Date_parse tokenList previousTokenList) w
       TimestampOlderThanPrevious
     ↔ ¬ timestampInFuture Date_parse w tokenList
       ∧ timestampRegressed Date_parse tokenList previousTokenList)
  ∧ ((∃ d, violationKind d = TimestampViolation
         ∧ failsWith (validateTimestamp Date_parse tokenList previousTokenList) w d)
     ↔ timestampInFuture Date_parse w tokenList
       ∨ timestampRegressed Date_parse tokenList previousTokenList)
  ∧ (passes (validateTimestamp Date_parse tokenList previousTokenList) w
     ↔ ¬ (timestampInFuture Date_parse w tokenList
          ∨ timestampRegressed Date_parse tokenList previousTokenList))
  ∧ (∀ previous, previousTokenList = Some previous →
       Date_parse (TokenList.timestamp tokenList)
       = Date_parse (TokenList.timestamp previous) →
       ¬ timestampInFuture Date_parse w tokenList →
       passes (validateTimestamp Date_parse tokenList previousTokenList) w).
Proof.
  destruct (validateTimestamp_cases Date_parse tokenList previousTokenList w)
    as (f & r & HF & HR & Hrun).
  unfold passes, failsWith. rewrite Hrun, <- HF. split_and!.
  - destruct f, r; intuition congruence.
  - rewrite <- HR. destruct f, r; intuition congruence.
  - rewrite <- HR. split.
    + intros (d & _ & Hd). destruct f; [by left|]. destruct r; [by right|done].
    + intros H. destruct f; [by exists TimestampInFuture|].
      destruct r; [by exists TimestampOlderThanPrevious|]. by destruct H.
  - rewrite <- HR. destruct f, r; intuition congruence.
  - intros previous -> E Hf. destruct f; [destruct Hf; by apply HF|]. destruct r; [|done].
    destruct (proj1 HR eq_refl) as (p & [= <-] & x & y & Hx & Hy & Hlt).
    rewrite E in Hx. assert (x = y) by congruence. lia.
Qed.

(** C9. When the candidate's timestamp does not parse as a date, the
    timestamp check passes, whatever the clock shows and whatever the
    previous document, if any, holds. *)
Theorem invalid_timestamp_passes Date_parse w tokenList previousTokenList :
  Date_parse (TokenList.timestamp tokenList) = None →
  passes (validateTimestamp Date_parse tokenList previousTokenList) w.
Proof.
  intros H. unfold passes. rewrite validateTimestamp_run, H. simpl.
  by destruct previousTokenList.
Qed.

Lemma invalid_timestamp_passes_witness :
  Sample.parse (TokenList.timestamp Sample.undated) = None
  ∧ passes (validateTimestamp Sample.parse Sample.undated (Some Sample.previous))
      Sample.earlier.
Proof.
  split; [reflexivity|].
  apply (invalid_timestamp_passes Sample.parse Sample.earlier Sample.undated
           (Some Sample.previous)).
  reflexivity.
Defined.

(** ** The uniqueness check *)

(** C3. The four uniqueness loops fail, with a diagnostic of kind
    [DuplicateViolation], exactly when two records of the candidate share
    [(chainId, lowercase(address))], [(chainId, lowercase(name))],
    [(chainId, lowercase(symbol))] or [(chainId, logoURI)], the logo URI
    being compared as it is written; they pass exactly when no two
    records do. *)
Theorem uniqueness_check w tokenList :
  ((∃ d, violationKind d = DuplicateViolation ∧ failsWith (checkDuplicates tokenList) w d)
   ↔ hasDuplicate (TokenList.tokens tokenList))
  ∧ (passes (checkDuplicates tokenList) w
     ↔ ¬ hasDuplicate (TokenList.tokens tokenList)).
Proof.
  rewrite hasDuplicate_iff.
  destruct (checkDuplicates_run tokenList w) as [[Hd Hr]|(Hno & d & Hd & Hr)].
  - split; split.
    + intros (d & _ & Hf). unfold passes, failsWith in *. congruence.
    + done.
    + tauto.
    + done.
  - split; split.
    + done.
    + intros _. by exists d.
    + intros Hp. unfold passes, failsWith in *. congruence.
    + done.
Qed.

(** ** The comparison with the previous list *)

Lemma uniqueIdentity_lookup previous t p :
  uniqueIdentity previous →
  keyed identityString (TokenList.tokens previous) !! identityString t = Some p
  ↔ p ∈ TokenList.tokens previous ∧ identityKey t = identityKey p.
Proof.
  intros Hu. rewrite keyed_lookup_NoDup.
  - rewrite identityString_eq. intuition congruence.
  - by apply (NoDup_chainKey (λ t, toLowerCase (Token.address t))).
Qed.

Lemma uniqueIdentity_inj previous t p :
  uniqueIdentity previous →
  t ∈ TokenList.tokens previous → p ∈ TokenList.tokens previous →
  identityKey t = identityKey p → t = p.
Proof.
  intros Hu Ht Hp E.
  assert (keyed identityString (TokenList.tokens previous) !! identityString t = Some p)
    as H1 by (by apply uniqueIdentity_lookup).
  assert (keyed identityString (TokenList.tokens previous) !! identityString t = Some t)
    as H2 by (by apply uniqueIdentity_lookup).
  congruence.
Qed.

Lemma not_modified_refl t : ¬ modified t t.
Proof. unfold modified. tauto. Qed.

Lemma existing_tokens_pass w tokenList previous :
  uniqueIdentity previous →
  passes (validateExistingTokens tokenList (Some previous)) w
  ↔ ∀ t p, t ∈ TokenList.tokens tokenList → p ∈ TokenList.tokens previous →
           identityKey t = identityKey p → ¬ modified t p.
Proof.
  intros Hu.
  destruct (validateExistingTokens_run tokenList previous w)
    as [[Hr Hall]|(t & p & Ht & Hp & Hm & Hr)].
  - split; [|done]. intros _ t p Ht Hp E. apply (Hall t p Ht).
    by apply uniqueIdentity_lookup.
  - split.
    + intros Hpass. unfold passes, failsWith in *. congruence.
    + intros Hall. apply uniqueIdentity_lookup in Hp as [Hp E]; [|done].
      destruct (Hall t p Ht Hp E Hm).
Qed.

(** ** Without a previous document *)

Lemma ConsoleError_in_probes d uris e :
  ConsoleError d ∈ (AxiosHead <$> uris) ++ [e] → e = ConsoleError d.
Proof.
  rewrite elem_of_app, list_elem_of_singleton. intros [H|H]; [|done].
  apply list_elem_of_fmap in H as (uri & [=] & _).
Qed.

(** C5. Without a previous document the version check and the comparison
    with the previous list do nothing, the timestamp check never reports
    a timestamp older than the previous one and passes as soon as the
    timestamp is not in the future, whatever the version number; and no
    run of the validator prints a [VersionViolation], an
    [ImmutableRecordViolation] or the regression diagnostic. *)
Theorem no_previous_document validate Date_parse w tokenList :
  passes (validateVersion tokenList None) w
  ∧ passes (validateExistingTokens tokenList None) w
  ∧ ¬ failsWith (validateTimestamp Date_parse tokenList None) w TimestampOlderThanPrevious
  ∧ (¬ timestampInFuture Date_parse w tokenList →
     passes (validateTimestamp Date_parse tokenList None) w)
  ∧ (∀ d, ConsoleError d ∈ (validateTokenList validate Date_parse tokenList None w).1 →
          violationKind d ≠ VersionViolation
          ∧ violationKind d ≠ ImmutableRecordViolation
          ∧ d ≠ TimestampOlderThanPrevious).
Proof.
  destruct (validateTimestamp_cases Date_parse tokenList None w)
    as (f & r & HF & HR & Hrun).
  assert (r = false) as ->.
  { destruct r; [|done]. by destruct (proj1 HR eq_refl) as (? & ? & _). }
  split_and!; try done.
  - unfold failsWith. rewrite Hrun. by destruct f.
  - intros Hf. unfold passes. rewrite Hrun. destruct f; [|done].
    destruct Hf. by apply HF.
  - intros d Hd.
    destruct (validateTokenList_run validate Date_parse tokenList None w)
      as [(d' & He & _ & Hr)|(_ & uris & [Hr|(d' & Hk & Hr)])];
      rewrite Hr in Hd; simpl in Hd.
    + apply list_elem_of_singleton in Hd as [= ->].
      by destruct d'; simpl in *.
    + by apply ConsoleError_in_probes in Hd.
    + apply ConsoleError_in_probes in Hd as [= ->].
      by destruct d; simpl in *.
Qed.

(** ** How a run ends *)


(** ** Determinism *)

(** C7, amended. The checks before the probes are a function of the
    candidate, the previous document, the constants and the time on the
    clock: two runs on the same documents at the same time give the same
    events and the same end, whatever the network answers. *)
Theorem deterministic_checks_read_the_clock_only
    validate Date_parse tokenList previous w1 w2 :
  clock w1 = clock w2 →
  deterministicChecks validate Date_parse tokenList previous w1
  = deterministicChecks validate Date_parse tokenList previous w2.
Proof.
  intros H. rewrite !deterministicChecks_inSequence.
  apply inSequence_clockOnly; [|done].
  apply deterministicStages_clockOnly.
Qed.

(** ** The probes come last *)

(** C8. When any of the checks before the probes fails (schema, list
    name, keywords, list logo, timestamp, version, uniqueness, comparison
    with the previous list, chain allow-list), the run issues no HEAD
    request; a run that issues one has passed every one of those
    checks. *)
Theorem probes_run_last validate Date_parse w tokenList previous :
  ((∃ stage d, stage ∈ deterministicStages validate Date_parse tokenList previous
        ∧ failsWith stage w d) →
   ∀ uri, AxiosHead uri ∉ (validateTokenList validate Date_parse tokenList previous w).1)
  ∧ (∀ uri,
       AxiosHead uri ∈ (validateTokenList validate Date_parse tokenList previous w).1 →
       ∀ stage, stage ∈ deterministicStages validate Date_parse tokenList previous →
                passes stage w).
Proof.
  destruct (deterministicChecks_run validate Date_parse tokenList previous w)
    as [[Hr Hall]|(stage & d & Hs & _ & Hsd & Hr)].
  - split; [|by intros uri _].
    intros (stage & d & Hs & Hsd). specialize (Hall stage Hs).
    unfold passes, failsWith in *. congruence.
  - assert (validateTokenList validate Date_parse tokenList previous w
            = ([ConsoleError d], ProcessExit 1)) as Hrun
      by (by apply bind_ProcessExit).
    rewrite Hrun. simpl. split.
    + intros _ uri Hin. by apply list_elem_of_singleton in Hin.
    + intros uri Hin. by apply list_elem_of_singleton in Hin.
Qed.

(** * Further properties of the validator *)

(** ** The map keys *)

(** X1. The key [`${chainId}-${text}`] under which the five maps file a
    record determines both the chain id and the text, also when the text
    itself holds dashes or digits: two records meet under one key only
    when they agree on both. *)
Theorem map_keys_never_collide c1 s1 c2 s2 :
  (chainKey c1 s1 = chainKey c2 s2 ↔ c1 = c2 ∧ s1 = s2)
  ∧ (Number_toString c1 = Number_toString c2 ↔ c1 = c2).
Proof.
  split; [apply chainKey_inj|]. split; [|by intros ->].
  intros H. assert (chainKey c1 "" = chainKey c2 "") as E.
  { unfold chainKey. by rewrite H. }
  by apply chainKey_inj in E as [-> _].
Qed.

Example keys_with_dashes :
  chainKey 1 "2-x" = "1-2-x" ∧ chainKey (-1) "2-x" = "-1-2-x"
  ∧ chainKey 12 "x" = "12-x".
Proof. by vm_compute. Qed.

(** ** Loops of guards report the first offender *)

Lemma forEach_guard_pass {A} (body : A → Proc unit) (cond : A → bool)
    (d : A → diagnostic) (l : list A) w :
  (∀ x, body x = when (cond x) (fail (d x))) →
  (∀ x, x ∈ l → cond x = false) →
  forEach body l w = ([], Normal tt).
Proof.
  intros Hbody Hall.
  destruct (forEach_guard body cond d l w Hbody) as [[Hr _]|(x & Hx & Hc & _)]; [done|].
  rewrite (Hall x Hx) in Hc. done.
Qed.

Lemma forEach_guard_at {A} (body : A → Proc unit) (cond : A → bool)
    (d : A → diagnostic) (l1 : list A) x (l2 : list A) w :
  (∀ x, body x = when (cond x) (fail (d x))) →
  (∀ y, y ∈ l1 → cond y = false) → cond x = true →
  forEach body (l1 ++ x :: l2) w = ([ConsoleError (d x)], ProcessExit 1).
Proof.
  intros Hbody. unfold forEach. induction l1 as [|y l1 IH]; intros Hall Hx; simpl.
  - apply bind_ProcessExit. by rewrite Hbody, Hx.
  - rewrite (bind_Normal _ _ _ tt).
    + apply IH; [|done]. intros z Hz. apply Hall. by right.
    + rewrite Hbody, (Hall y); [done|left].
Qed.

Lemma forEach_guard_first {A} (body : A → Proc unit) (cond : A → bool)
    (d : A → diagnostic) (l : list A) w :
  (∀ x, body x = when (cond x) (fail (d x))) →
  (forEach body l w = ([], Normal tt) ∧ ∀ x, x ∈ l → cond x = false)
  ∨ (∃ l1 x l2, l = l1 ++ x :: l2 ∧ (∀ y, y ∈ l1 → cond y = false) ∧ cond x = true
       ∧ forEach body l w = ([ConsoleError (d x)], ProcessExit 1)).
Proof.
  intros Hbody. induction l as [|y l IH].
  - left. split; [done|]. intros x Hx. by apply elem_of_nil in Hx.
  - destruct (cond y) eqn:Hy.
    + right. exists [], y, l. split; [done|]. split.
      { intros z Hz. by apply elem_of_nil in Hz. }
      split; [done|]. apply (forEach_guard_at body cond d []); [done| |done].
      intros z Hz. by apply elem_of_nil in Hz.
    + destruct IH as [[Hr Hall]|(l1 & x & l2 & -> & Hall & Hx & Hr)].
      * left. assert (∀ x, x ∈ y :: l → cond x = false) as Hall'.
        { intros x [->|Hx]%elem_of_cons; auto. }
        split; [|done]. by apply (forEach_guard_pass body cond d).
      * right. exists (y :: l1), x, l2. split; [done|].
        assert (∀ z, z ∈ y :: l1 → cond z = false) as Hall'.
        { intros z [->|Hz]%elem_of_cons; auto. }
        split; [done|]. split; [done|].
        by apply (forEach_guard_at body cond d (y :: l1)).
Qed.

(** ** The chain allow-list *)

Lemma allowedChain_decide t :
  negb (bool_decide (Token.chainId t ∈ ALLOWED_CHAIN_IDS)) = false ↔ allowedChain t.
Proof.
  rewrite negb_false_iff, bool_decide_eq_true. unfold ALLOWED_CHAIN_IDS, allowedChain.
  rewrite !elem_of_cons, elem_of_nil. tauto.
Qed.

Lemma allowedChain_decide_not t :
  negb (bool_decide (Token.chainId t ∈ ALLOWED_CHAIN_IDS)) = true ↔ ¬ allowedChain t.
Proof.
  rewrite <- allowedChain_decide. by destruct (negb _).
Qed.

Lemma validateChainIds_pass w tokenList :
  passes (validateChainIds tokenList) w
  ↔ ∀ t, t ∈ TokenList.tokens tokenList → allowedChain t.
Proof.
  unfold passes, validateChainIds.
  match goal with |- context [forEach ?b _ w] => set (body := b) end.
  set (cond := λ t, negb (bool_decide (Token.chainId t ∈ ALLOWED_CHAIN_IDS))).
  destruct (forEach_guard body cond InvalidChainId (TokenList.tokens tokenList) w)
    as [[Hr Hall]|(x & Hx & Hc & Hr)]; [done|..].
  - split; [|done]. intros _ t Ht. apply allowedChain_decide. by apply Hall.
  - split; [rewrite Hr; done|]. intros Hall.
    apply allowedChain_decide_not in Hc. destruct Hc. by apply Hall.
Qed.

(** X2. The chain check passes exactly when every record is on chain
    89898 or 2786; otherwise it reports the first record of the list, in
    order, that is on another chain, and only that one. *)
Theorem chain_ids_first_offender w tokenList :
  (passes (validateChainIds tokenList) w
   ↔ ∀ t, t ∈ TokenList.tokens tokenList → allowedChain t)
  ∧ (∀ d, failsWith (validateChainIds tokenList) w d
          ↔ ∃ t, firstOffender allowedChain (TokenList.tokens tokenList) t
               ∧ d = InvalidChainId t).
Proof.
  split; [apply validateChainIds_pass|]. intros d.
  unfold failsWith, validateChainIds, firstOffender.
  match goal with |- context [forEach ?b _ w] => set (body := b) end.
  set (cond := λ t, negb (bool_decide (Token.chainId t ∈ ALLOWED_CHAIN_IDS))).
  assert (∀ x, body x = when (cond x) (fail (InvalidChainId x))) as Hbody by done.
  split.
  - intros Hd.
    destruct (forEach_guard_first body cond InvalidChainId
                (TokenList.tokens tokenList) w Hbody)
      as [[Hr _]|(l1 & x & l2 & Hl & Hall & Hx & Hr)]; [congruence|].
    exists x. split; [|congruence]. exists l1, l2. split; [done|]. split.
    + intros y Hy. apply allowedChain_decide. by apply Hall.
    + by apply allowedChain_decide_not.
  - intros (t & (l1 & l2 & Hl & Hall & Ht) & ->). rewrite Hl.
    apply (forEach_guard_at body cond InvalidChainId); [done|..].
    + intros y Hy. apply allowedChain_decide. by apply Hall.
    + by apply allowedChain_decide_not.
Qed.

(** ** The logo probes *)

Lemma firstOffender_exists {A} (good : A → Prop) `{∀ x, Decision (good x)} (l : list A) :
  (∀ x, x ∈ l → good x) ∨ ∃ x, firstOffender good l x.
Proof.
  induction l as [|y l IH].
  - left. intros x Hx. by apply elem_of_nil in Hx.
  - destruct (decide (good y)) as [Hy|Hy].
    + destruct IH as [Hall|(x & l1 & l2 & -> & Hall & Hx)].
      * left. intros x [->|Hx]%elem_of_cons; auto.
      * right. exists x, (y :: l1), l2. split; [done|]. split; [|done].
        intros z [->|Hz]%elem_of_cons; auto.
    + right. exists y, [], l. split; [done|]. split; [|done].
      intros z Hz. by apply elem_of_nil in Hz.
Qed.

Lemma probe_reachable w t (k : unit → Proc unit) :
  reachable w t →
  ((response ← axios_head (Token.logoURI t);
    match response with
    | Some status => when (bool_decide (status ≠ 200)) (fail (InvalidLogoURI t))
    | None => fail (LogoURIProbeFailed t)
    end) ≫= k) w
  = (AxiosHead (Token.logoURI t) :: (k tt w).1, (k tt w).2).
Proof.
  unfold reachable. intros H. rewrite !bind_run. simpl. rewrite H. done.
Qed.

Lemma probe_unreachable w t (k : unit → Proc unit) :
  ¬ reachable w t →
  ((response ← axios_head (Token.logoURI t);
    match response with
    | Some status => when (bool_decide (status ≠ 200)) (fail (InvalidLogoURI t))
    | None => fail (LogoURIProbeFailed t)
    end) ≫= k) w
  = ([AxiosHead (Token.logoURI t); ConsoleError (probeDiagnostic w t)], ProcessExit 1).
Proof.
  unfold reachable, probeDiagnostic. intros H. rewrite !bind_run. simpl.
  destruct (network w (Token.logoURI t)) as [status|]; [|done].
  rewrite bool_decide_true; [done|]. congruence.
Qed.

Lemma validateLogoURIs_reachable tokenList w :
  (∀ t, t ∈ TokenList.tokens tokenList → reachable w t) →
  validateLogoURIs tokenList w = (probes (TokenList.tokens tokenList), Normal tt).
Proof.
  unfold validateLogoURIs, forEach, probes.
  induction (TokenList.tokens tokenList) as [|t l IH]; intros Hall; simpl; [done|].
  rewrite probe_reachable by (apply Hall; left).
  rewrite IH; [done|]. intros y Hy. apply Hall. by right.
Qed.

Lemma validateLogoURIs_stops tokenList w l1 t l2 :
  TokenList.tokens tokenList = l1 ++ t :: l2 →
  (∀ y, y ∈ l1 → reachable w y) → ¬ reachable w t →
  validateLogoURIs tokenList w
  = (probes (l1 ++ [t]) ++ [ConsoleError (probeDiagnostic w t)], ProcessExit 1).
Proof.
  unfold validateLogoURIs, forEach, probes. intros -> Hall Ht.
  induction l1 as [|y l1 IH]; simpl.
  - by rewrite probe_unreachable.
  - rewrite probe_reachable by (apply Hall; left).
    rewrite IH; [done|]. intros z Hz. apply Hall. by right.
Qed.

(** X3. The logos are probed in the order of the list, one HEAD request
    for each record. When every request answers 200 the loop goes on to
    the end; otherwise it stops at the first record whose request answers
    another status or is rejected, prints the diagnostic of that record
    and ends the process: no later logo is probed. *)
Theorem probes_follow_the_list w tokenList :
  (returnsToCaller (validateLogoURIs tokenList) w
   ↔ ∀ t, t ∈ TokenList.tokens tokenList → reachable w t)
  ∧ ((∀ t, t ∈ TokenList.tokens tokenList → reachable w t) →
     validateLogoURIs tokenList w = (probes (TokenList.tokens tokenList), Normal tt))
  ∧ (∀ l1 t l2,
       TokenList.tokens tokenList = l1 ++ t :: l2 →
       (∀ y, y ∈ l1 → reachable w y) → ¬ reachable w t →
       validateLogoURIs tokenList w
       = (probes (l1 ++ [t]) ++ [ConsoleError (probeDiagnostic w t)], ProcessExit 1)).
Proof.
  split_and!.
  - split.
    + intros (tr & a & Hr).
      destruct (@firstOffender_exists _ (reachable w)
                  (λ x, decide (network w (Token.logoURI x) = Some 200))
                  (TokenList.tokens tokenList))
        as [Hall|(t & l1 & l2 & Hl & Hall & Ht)]; [done|].
      rewrite (validateLogoURIs_stops tokenList w l1 t l2 Hl Hall Ht) in Hr. done.
    + intros Hall. exists (probes (TokenList.tokens tokenList)), tt.
      by apply validateLogoURIs_reachable.
  - apply validateLogoURIs_reachable.
  - apply validateLogoURIs_stops.
Qed.

Example status_204_is_refused :
  validateLogoURIs (Sample.document (mkVersion 1 0 0) "2024-02-18T12:00:00Z"
                      [Sample.foo; Sample.bar; Sample.baz])
    (mkWorld 0 (λ uri, if bool_decide (uri = "https://example.org/bar.svg")
                       then Some 204 else Some 200))
  = ([AxiosHead "https://example.org/foo.svg"; AxiosHead "https://example.org/bar.svg";
      ConsoleError (InvalidLogoURI Sample.bar)],
     ProcessExit 1).
Proof. by vm_compute. Qed.

(** ** What a uniqueness loop reports *)

Section DuplicateReport.

Context (key val : Token.t → string) (diag : Token.t → string → diagnostic).

Lemma seen_lookup_other (p : list Token.t) (m : gmap string string) k :
  k ∉ key <$> p → foldl (λ m t, <[key t := val t]> m) m p !! k = m !! k.
Proof.
  revert m. induction p as [|x p IH]; intros m Hk; simpl; [done|].
  rewrite fmap_cons in Hk. apply not_elem_of_cons in Hk as [Hx Hp].
  rewrite IH by done. by rewrite lookup_insert_ne.
Qed.

Lemma seen_lookup (p : list Token.t) (m : gmap string string) e :
  NoDup (key <$> p) → e ∈ p →
  foldl (λ m t, <[key t := val t]> m) m p !! key e = Some (val e).
Proof.
  revert m. induction p as [|x p IH]; intros m Hnd He; [by apply elem_of_nil in He|].
  rewrite fmap_cons in Hnd. apply NoDup_cons in Hnd as [Hx Hnd]. simpl.
  apply elem_of_cons in He as [->|He]; [|by apply IH].
  rewrite seen_lookup_other by done. apply lookup_insert_eq.
Qed.

Lemma duplicateLoop_prefix (p rest : list Token.t) (m : gmap string string) w :
  NoDup (key <$> p) → (∀ x, x ∈ p → m !! key x = None) →
  forOf (seenBefore key val diag) m (p ++ rest) w
  = forOf (seenBefore key val diag) (foldl (λ m t, <[key t := val t]> m) m p) rest w.
Proof.
  revert m. induction p as [|x p IH]; intros m Hnd Hfresh; simpl; [done|].
  rewrite fmap_cons in Hnd. apply NoDup_cons in Hnd as [Hx Hnd].
  rewrite (bind_Normal _ _ _ (<[key x := val x]> m)).
  - apply IH; [done|]. intros y Hy. rewrite lookup_insert_ne.
    + apply Hfresh. by right.
    + intros E. apply Hx. rewrite E. by apply list_elem_of_fmap_2.
  - unfold seenBefore. rewrite Hfresh; [done|left].
Qed.

Lemma duplicateLoop_at (l1 : list Token.t) e l2 t l3 w :
  NoDup (key <$> (l1 ++ e :: l2)) → key e = key t →
  forOf (seenBefore key val diag) ∅ (l1 ++ e :: l2 ++ t :: l3) w
  = ([ConsoleError (diag t (val e))], ProcessExit 1).
Proof.
  intros Hnd E.
  replace (l1 ++ e :: l2 ++ t :: l3) with ((l1 ++ e :: l2) ++ t :: l3)
    by (by rewrite <- app_assoc).
  rewrite duplicateLoop_prefix; [|done|intros; apply lookup_empty].
  simpl. apply bind_ProcessExit. unfold seenBefore.
  rewrite <- E, seen_lookup; [done..|].
  apply elem_of_app. right. left.
Qed.

End DuplicateReport.

Lemma firstRepeat_exists {K} `{EqDecision K} (key : Token.t → K) (l : list Token.t) :
  ¬ NoDup (key <$> l) → ∃ e t, firstRepeat key l e t.
Proof.
  induction l as [|x l IH] using rev_ind; [intros []; constructor|].
  intros Hno. destruct (decide (NoDup (key <$> l))) as [Hnd|Hnd].
  - assert (key x ∈ key <$> l) as Hin.
    { destruct (decide (key x ∈ key <$> l)) as [?|Hnotin]; [done|].
      destruct Hno. rewrite fmap_app. apply NoDup_app. split; [done|]. split.
      - intros k Hk [->|H]%elem_of_cons; [done|]. by apply elem_of_nil in H.
      - apply NoDup_singleton. }
    apply list_elem_of_fmap in Hin as (e & He & Hin).
    apply list_elem_of_split in Hin as (l1 & l2 & ->).
    exists e, x, l1, l2, []. split; [by rewrite <- app_assoc|]. done.
  - destruct (IH Hnd) as (e & t & l1 & l2 & l3 & -> & Hp & E).
    exists e, t, l1, l2, (l3 ++ [x]). split; [|done].
    rewrite <- app_assoc. simpl. by rewrite <- app_assoc.
Qed.

Lemma firstRepeat_chainKey (f : Token.t → string) l e t :
  firstRepeat (λ t, chainKey (Token.chainId t) (f t)) l e t
  ↔ firstRepeat (λ t, (Token.chainId t, f t)) l e t.
Proof.
  unfold firstRepeat. setoid_rewrite NoDup_chainKey. setoid_rewrite chainKey_inj.
  split; intros (l1 & l2 & l3 & Hl & Hnd & E); exists l1, l2, l3;
    (split; [done|]); (split; [done|]).
  - destruct E as [-> ->]. done.
  - by injection E.
Qed.

Lemma duplicateLoop_report key val diag (l : list Token.t) w d :
  (forOf (seenBefore key val diag) ∅ l ;; mret tt) w = ([ConsoleError d], ProcessExit 1)
  ↔ ∃ e t, firstRepeat key l e t ∧ d = diag t (val e).
Proof.
  split.
  - intros Hd.
    destruct (duplicateLoop_spec key val diag l w) as [[_ Hr]|[Hno _]]; [congruence|].
    destruct (firstRepeat_exists key l Hno) as (e & t & l1 & l2 & l3 & Hl & Hnd & E).
    exists e, t. split; [by exists l1, l2, l3|].
    assert ((forOf (seenBefore key val diag) ∅ l ;; mret tt) w
            = ([ConsoleError (diag t (val e))], ProcessExit 1)) as Hr.
    { apply bind_ProcessExit. rewrite Hl. by apply duplicateLoop_at. }
    congruence.
  - intros (e & t & (l1 & l2 & l3 & -> & Hnd & E) & ->).
    apply bind_ProcessExit. by apply duplicateLoop_at.
Qed.

(** X4. Each uniqueness loop reports the first record of the list whose
    key repeats that of a record before it, together with the record it
    collides with: the address loop prints the later record, the name and
    logo loops the later record and the symbol of the earlier one, the
    symbol loop the later record and the name of the earlier one. *)
Theorem duplicate_report_names_both_records w tokenList :
  (∀ d, failsWith (checkDuplicateAddresses tokenList) w d
        ↔ ∃ e t, firstRepeat identityKey (TokenList.tokens tokenList) e t
               ∧ d = DuplicateAddress t)
  ∧ (∀ d, failsWith (checkDuplicateNames tokenList) w d
          ↔ ∃ e t, firstRepeat nameKey (TokenList.tokens tokenList) e t
                 ∧ d = DuplicateName t (Token.symbol e))
  ∧ (∀ d, failsWith (checkDuplicateSymbols tokenList) w d
          ↔ ∃ e t, firstRepeat symbolKey (TokenList.tokens tokenList) e t
                 ∧ d = DuplicateSymbol t (Token.name e))
  ∧ (∀ d, failsWith (checkDuplicateLogoURIs tokenList) w d
          ↔ ∃ e t, firstRepeat logoKey (TokenList.tokens tokenList) e t
                 ∧ d = DuplicateLogoURI t (Token.symbol e)).
Proof.
  unfold failsWith, identityKey, nameKey, symbolKey, logoKey. split_and!; intros d.
  - setoid_rewrite <- (firstRepeat_chainKey (λ t, toLowerCase (Token.address t))).
    apply (duplicateLoop_report _ Token.symbol (λ t _, DuplicateAddress t)).
  - setoid_rewrite <- (firstRepeat_chainKey (λ t, toLowerCase (Token.name t))).
    apply (duplicateLoop_report _ Token.symbol DuplicateName).
  - setoid_rewrite <- (firstRepeat_chainKey (λ t, toLowerCase (Token.symbol t))).
    apply (duplicateLoop_report _ Token.name DuplicateSymbol).
  - setoid_rewrite <- (firstRepeat_chainKey Token.logoURI).
    apply (duplicateLoop_report _ Token.symbol DuplicateLogoURI).
Qed.

(** X5. The four loops run in a fixed order and the first that finds a
    repeated key ends the run: a repeated address is reported whatever
    else repeats, a repeated name only when the addresses are distinct,
    a repeated symbol only when addresses and names are, a repeated logo
    only when all three are. *)
Theorem address_duplicates_are_reported_first w tokenList :
  let l := TokenList.tokens tokenList in
  (¬ NoDup (identityKey <$> l) →
   ∃ t, failsWith (checkDuplicates tokenList) w (DuplicateAddress t))
  ∧ (NoDup (identityKey <$> l) → ¬ NoDup (nameKey <$> l) →
     ∃ t other, failsWith (checkDuplicates tokenList) w (DuplicateName t other))
  ∧ (NoDup (identityKey <$> l) → NoDup (nameKey <$> l) → ¬ NoDup (symbolKey <$> l) →
     ∃ t other, failsWith (checkDuplicates tokenList) w (DuplicateSymbol t other))
  ∧ (NoDup (identityKey <$> l) → NoDup (nameKey <$> l) → NoDup (symbolKey <$> l) →
     ¬ NoDup (logoKey <$> l) →
     ∃ t other, failsWith (checkDuplicates tokenList) w (DuplicateLogoURI t other)).
Proof.
  intros l. subst l. unfold failsWith, checkDuplicates.
  destruct (checkDuplicateAddresses_run tokenList w) as [[H1 R1]|(H1 & t1 & _ & R1)].
  2: { split_and!; try done. intros _. exists t1. by apply bind_ProcessExit. }
  rewrite (bind_Normal _ _ _ _ R1).
  destruct (checkDuplicateNames_run tokenList w) as [[H2 R2]|(H2 & t2 & o2 & _ & R2)].
  2: { split_and!; try done. intros _ _. exists t2, o2. by apply bind_ProcessExit. }
  rewrite (bind_Normal _ _ _ _ R2).
  destruct (checkDuplicateSymbols_run tokenList w) as [[H3 R3]|(H3 & t3 & o3 & _ & R3)].
  2: { split_and!; try done. intros _ _ _. exists t3, o3. by apply bind_ProcessExit. }
  rewrite (bind_Normal _ _ _ _ R3).
  destruct (checkDuplicateLogoURIs_run tokenList w) as [[H4 R4]|(H4 & t4 & o4 & _ & R4)].
  - split_and!; done.
  - split_and!; try done. intros _ _ _ _. by exists t4, o4.
Qed.

(** ** The first failing check *)

Lemma inSequence_at (before : list (Proc unit)) stage after w d :
  (∀ q, q ∈ before → passes q w) → failsWith stage w d →
  failsWith (inSequence (before ++ stage :: after)) w d.
Proof.
  unfold passes, failsWith. intros Hall Hs.
  induction before as [|q before IH]; simpl.
  - by apply bind_ProcessExit.
  - rewrite (bind_Normal _ _ _ tt) by (apply Hall; left).
    apply IH. intros q' Hq'. apply Hall. by right.
Qed.

Lemma inSequence_first P (ps : list (Proc unit)) w d :
  (∀ p, p ∈ ps → checks P p) →
  failsWith (inSequence ps) w d →
  ∃ before stage after, ps = before ++ stage :: after
    ∧ (∀ q, q ∈ before → passes q w) ∧ failsWith stage w d.
Proof.
  unfold passes, failsWith. induction ps as [|p ps IH]; intros Hps; simpl.
  - intros [=].
  - destruct (checks_unit P p w) as [Hp|(d' & _ & Hp)]; [apply Hps; left|..].
    + rewrite (bind_Normal _ _ _ _ Hp). intros Hd.
      destruct IH as (before & stage & after & -> & Hall & Hs); [|done|].
      { intros q Hq. apply Hps. by right. }
      exists (p :: before), stage, after. split; [done|]. split; [|done].
      intros q [->|Hq]%elem_of_cons; auto.
    + rewrite (bind_ProcessExit _ _ _ _ _ Hp). intros [= <-].
      exists [], p, ps. split; [done|]. split; [|done].
      intros q Hq. by apply elem_of_nil in Hq.
Qed.

(** X6. The validator stops at the first check that fails, in the order
    schema, list name, keywords, list logo, timestamp, version,
    uniqueness, comparison with the previous list, chain allow-list: the
    diagnostic it prints is that of a check all of whose predecessors
    pass, and nothing else is printed or probed in that run. *)
Theorem first_failing_check_is_reported validate Date_parse w tokenList previous d :
  (failsWith (deterministicChecks validate Date_parse tokenList previous) w d
   ↔ ∃ before stage after,
       deterministicStages validate Date_parse tokenList previous
       = before ++ stage :: after
       ∧ (∀ q, q ∈ before → passes q w) ∧ failsWith stage w d)
  ∧ (failsWith (deterministicChecks validate Date_parse tokenList previous) w d →
     validateTokenList validate Date_parse tokenList previous w
     = ([ConsoleError d], ProcessExit 1)).
Proof.
  split.
  - unfold failsWith at 1. rewrite deterministicChecks_inSequence. split.
    + apply (inSequence_first (expected previous)), deterministicStages_checks.
    + intros (before & stage & after & -> & Hall & Hs). by apply inSequence_at.
  - intros Hd. by apply bind_ProcessExit.
Qed.

(** ** The record a candidate record is compared with *)

Lemma keyed_previousRecord previous t :
  keyed identityString (TokenList.tokens previous) !! identityString t
  = previousRecord previous t.
Proof.
  unfold previousRecord.
  induction (TokenList.tokens previous) as [|p l IH] using rev_ind; [done|].
  rewrite keyed_snoc, filter_app, filter_cons, filter_nil.
  destruct (decide (identityKey p = identityKey t)) as [E|E].
  - rewrite last_snoc. apply identityString_eq in E. rewrite E.
    apply lookup_insert_eq.
  - rewrite app_nil_r, <- IH. apply lookup_insert_ne.
    by rewrite identityString_eq.
Qed.

Lemma unchanged_decide previous t :
  match keyed identityString (TokenList.tokens previous) !! identityString t with
  | Some p =>
      bool_decide (Token.name t ≠ Token.name p)
      || bool_decide (Token.symbol t ≠ Token.symbol p)
      || bool_decide (Token.decimals t ≠ Token.decimals p)
      || bool_decide (Token.logoURI t ≠ Token.logoURI p)
  | None => false
  end = false ↔ unchanged previous t.
Proof.
  unfold unchanged. rewrite keyed_previousRecord.
  destruct (previousRecord previous t) as [p|].
  - rewrite <- not_true_iff_false, modified_decide. split.
    + by intros H q [= <-].
    + intros H. by apply H.
  - split; [by intros _ q|done].
Qed.

Lemma validateExistingTokens_guard tokenList previous :
  ∃ body cond,
    validateExistingTokens tokenList (Some previous)
    = forEach body (TokenList.tokens tokenList)
    ∧ (∀ t, body t = when (cond t) (fail (ExistingTokenModified t)))
    ∧ (∀ t, cond t = false ↔ unchanged previous t).
Proof.
  eexists _, (λ t,
    match keyed identityString (TokenList.tokens previous) !! identityString t with
    | Some p =>
        bool_decide (Token.name t ≠ Token.name p)
        || bool_decide (Token.symbol t ≠ Token.symbol p)
        || bool_decide (Token.decimals t ≠ Token.decimals p)
        || bool_decide (Token.logoURI t ≠ Token.logoURI p)
    | None => false
    end).
  split; [reflexivity|]. split.
  - intros t. simpl. unfold keyed, identityString. by destruct (_ !! _).
  - intros t. apply unchanged_decide.
Qed.

Lemma validateExistingTokens_unchanged w tokenList previous :
  passes (validateExistingTokens tokenList (Some previous)) w
  ↔ ∀ t, t ∈ TokenList.tokens tokenList → unchanged previous t.
Proof.
  destruct (validateExistingTokens_guard tokenList previous)
    as (body & cond & -> & Hbody & Hcond).
  unfold passes.
  destruct (forEach_guard body cond ExistingTokenModified (TokenList.tokens tokenList) w)
    as [[Hr Hall]|(x & Hx & Hc & Hr)]; [done|..].
  - split; [|done]. intros _ t Ht. apply Hcond. by apply Hall.
  - split; [rewrite Hr; done|]. intros Hall.
    specialize (Hall x Hx). apply Hcond in Hall. congruence.
Qed.

Lemma validateExistingTokens_offender w tokenList previous d :
  failsWith (validateExistingTokens tokenList (Some previous)) w d
  ↔ ∃ t, firstOffender (unchanged previous) (TokenList.tokens tokenList) t
       ∧ d = ExistingTokenModified t.
Proof.
  destruct (validateExistingTokens_guard tokenList previous)
    as (body & cond & -> & Hbody & Hcond).
  assert (∀ t, cond t = true ↔ ¬ unchanged previous t) as Hcond'.
  { intros t. rewrite <- Hcond. by destruct (cond t). }
  unfold failsWith, firstOffender. split.
  - intros Hd.
    destruct (forEach_guard_first body cond ExistingTokenModified
                (TokenList.tokens tokenList) w Hbody)
      as [[Hr _]|(l1 & x & l2 & Hl & Hall & Hx & Hr)]; [congruence|].
    exists x. split; [|congruence]. exists l1, l2. split; [done|]. split.
    + intros y Hy. apply Hcond. by apply Hall.
    + by apply Hcond'.
  - intros (t & (l1 & l2 & Hl & Hall & Ht) & ->). rewrite Hl.
    apply (forEach_guard_at body cond ExistingTokenModified); [done|..].
    + intros y Hy. apply Hcond. by apply Hall.
    + by apply Hcond'.
Qed.

(** X7. Whatever the previous list holds, a candidate record is compared
    with the last record of the previous list that has its identity key
    (a later entry of [new Map] replaces an earlier one): the comparison
    passes exactly when every candidate record is unchanged with respect
    to that record, and otherwise reports the first candidate record, in
    list order, that is not. *)
Theorem existing_tokens_compare_with_the_last w tokenList previous :
  (passes (validateExistingTokens tokenList (Some previous)) w
   ↔ ∀ t, t ∈ TokenList.tokens tokenList → unchanged previous t)
  ∧ (∀ d, failsWith (validateExistingTokens tokenList (Some previous)) w d
          ↔ ∃ t, firstOffender (unchanged previous) (TokenList.tokens tokenList) t
               ∧ d = ExistingTokenModified t)
  ∧ (∀ t l1 p l2,
       TokenList.tokens previous = l1 ++ p :: l2 →
       identityKey p = identityKey t →
       (∀ y, y ∈ l2 → identityKey y ≠ identityKey t) →
       previousRecord previous t = Some p).
Proof.
  split; [apply validateExistingTokens_unchanged|]. split.
  - intros d. apply validateExistingTokens_offender.
  - intros t l1 p l2 Hl E Hlater. unfold previousRecord.
    rewrite Hl, filter_app, filter_cons_True by done.
    replace (filter (λ p0, identityKey p0 = identityKey t) l2) with (@nil Token.t).
    + apply last_snoc.
    + symmetry. apply elem_of_nil_inv. intros y [Hy Hin]%list_elem_of_filter.
      by apply (Hlater y).
Qed.

(** C1, amended. With a previous document, a candidate record whose
    identity key [(chainId, lowercase(address))] is that of a record of
    the previous document is compared with the last record of the
    previous document that has this key, which is the only one when the
    identity keys of the previous document are pairwise distinct. The
    comparison fails, with a diagnostic of kind
    [ImmutableRecordViolation], exactly when for some candidate record
    one of name, symbol, decimals, logoURI differs from that record's,
    and passes exactly when for none. When the identity keys of the
    previous document are pairwise distinct, resubmitting its records as
    they are passes, and so does leaving some of them out; a candidate
    that shares no identity key with the previous document passes. *)
Theorem existing_tokens_check w tokenList previous :
  ((∃ d, violationKind d = ImmutableRecordViolation
       ∧ failsWith (validateExistingTokens tokenList (Some previous)) w d)
   ↔ ∃ t p, t ∈ TokenList.tokens tokenList ∧ previousRecord previous t = Some p
          ∧ modified t p)
  ∧ (passes (validateExistingTokens tokenList (Some previous)) w
     ↔ ∀ t p, t ∈ TokenList.tokens tokenList → previousRecord previous t = Some p →
              ¬ modified t p)
  ∧ (∀ t p, previousRecord previous t = Some p →
            p ∈ TokenList.tokens previous ∧ identityKey p = identityKey t)
  ∧ (∀ t p, p ∈ TokenList.tokens previous → identityKey p = identityKey t →
            is_Some (previousRecord previous t))
  ∧ (uniqueIdentity previous →
     ∀ t p, previousRecord previous t = Some p
            ↔ p ∈ TokenList.tokens previous ∧ identityKey p = identityKey t)
  ∧ (uniqueIdentity previous →
     TokenList.tokens tokenList ⊆ TokenList.tokens previous →
     passes (validateExistingTokens tokenList (Some previous)) w)
  ∧ ((∀ t p, t ∈ TokenList.tokens tokenList → p ∈ TokenList.tokens previous →
             identityKey t ≠ identityKey p) →
     passes (validateExistingTokens tokenList (Some previous)) w).
Proof.
  assert (∀ t p, previousRecord previous t = Some p →
                 p ∈ TokenList.tokens previous ∧ identityKey p = identityKey t) as Hrec.
  { intros t p Hp. unfold previousRecord in Hp.
    apply last_Some_elem_of, list_elem_of_filter in Hp. tauto. }
  assert (passes (validateExistingTokens tokenList (Some previous)) w
          ↔ ∀ t p, t ∈ TokenList.tokens tokenList → previousRecord previous t = Some p →
                   ¬ modified t p) as Hpass.
  { rewrite validateExistingTokens_unchanged. unfold unchanged. split.
    - intros Hall t p Ht Hp. by apply (Hall t Ht).
    - intros Hall t Ht q Hq. by apply (Hall t q). }
  split_and!; [|done|done|..].
  - destruct (validateExistingTokens_run tokenList previous w)
      as [[Hr Hall]|(t & p & Ht & Hp & Hm & Hr)].
    + split.
      * intros (d & _ & Hf). unfold passes, failsWith in *. congruence.
      * intros (t & p & Ht & Hp & Hm). destruct (Hall t p Ht); [|done].
        by rewrite keyed_previousRecord.
    + rewrite keyed_previousRecord in Hp. split.
      * intros _. by exists t, p.
      * intros _. by exists (ExistingTokenModified t).
  - intros t p Hp E. unfold previousRecord. apply last_is_Some.
    intros Hnil. apply (filter_nil_not_elem_of _ _ p Hnil); done.
  - intros Hu t p. rewrite <- keyed_previousRecord, uniqueIdentity_lookup by done.
    intuition congruence.
  - intros Hu Hsub. apply existing_tokens_pass; [done|]. intros t p Ht Hp E.
    rewrite (uniqueIdentity_inj previous t p); auto using not_modified_refl.
  - intros Hno. apply Hpass. intros t p Ht Hp _.
    apply Hrec in Hp as [Hp E]. by destruct (Hno t p Ht Hp).
Qed.

(** C10, amended. A candidate record that differs only in the letter
    case of its address from the previous record it is compared with
    (the last record of the previous list with its identity key, which is
    any record with that key when the identity keys of the previous list
    are pairwise distinct), with the same chainId, name, symbol, decimals
    and logoURI, passes the comparison with the previous list: it is
    unchanged, it is never the record reported as modified, and a
    candidate list passes as soon as its other records do. *)
Theorem address_case_change_passes w previous t p :
  previousRecord previous t = Some p
  ∨ (uniqueIdentity previous ∧ p ∈ TokenList.tokens previous) →
  caseVariant p t →
  unchanged previous t
  ∧ (∀ tokenList,
       ¬ failsWith (validateExistingTokens tokenList (Some previous)) w
           (ExistingTokenModified t))
  ∧ (∀ tokenList,
       (∀ y, y ∈ TokenList.tokens tokenList → y = t ∨ unchanged previous y) →
       passes (validateExistingTokens tokenList (Some previous)) w).
Proof.
  intros Hmatch (Hc & Ha & Hn & Hs & Hd & Hl).
  assert (previousRecord previous t = Some p) as Hrec.
  { destruct Hmatch as [?|[Hu Hp]]; [done|].
    rewrite <- keyed_previousRecord. apply uniqueIdentity_lookup; [done|].
    split; [done|]. unfold identityKey. by rewrite Hc, Ha. }
  assert (unchanged previous t) as Hun.
  { intros q Hq. assert (q = p) as -> by congruence. unfold modified. tauto. }
  split_and!; [done|..].
  - intros tokenList Hf.
    apply validateExistingTokens_offender in Hf as (t' & (l1 & l2 & _ & _ & Ht') & [= <-]).
    done.
  - intros tokenList Hall. apply validateExistingTokens_unchanged.
    intros y Hy. by destruct (Hall y Hy) as [->|?].
Qed.

(** ** Adding records *)

Ltac skip_stage H :=
  match goal with
  | |- (?s ;; _) ?w = _ → _ =>
      let Hp := fresh "Hp" in
      let Hd := fresh "Hd" in
      let d := fresh "d" in
      destruct (checks_unit (λ d, ∀ t, d ≠ ExistingTokenModified t) s w H)
        as [Hp|(d & Hd & Hp)];
      [ rewrite (bind_Normal _ _ _ _ Hp)
      | rewrite (bind_ProcessExit _ _ _ _ _ Hp);
        let E := fresh in intros E; injection E as ->; by edestruct Hd ]
  end.

Lemma modified_is_reported_after_duplicates
    validate Date_parse w tokenList previous t :
  failsWith (deterministicChecks validate Date_parse tokenList previous) w
    (ExistingTokenModified t) →
  passes (checkDuplicates tokenList) w
  ∧ failsWith (validateExistingTokens tokenList previous) w (ExistingTokenModified t).
Proof.
  unfold failsWith, deterministicChecks.
  skip_stage (validateSchema_checks (λ d, ∀ t, d ≠ ExistingTokenModified t)
                validate tokenList ltac:(done)).
  skip_stage (validateListName_checks (λ d, ∀ t, d ≠ ExistingTokenModified t)
                tokenList ltac:(done)).
  skip_stage (validateKeywords_checks (λ d, ∀ t, d ≠ ExistingTokenModified t)
                tokenList ltac:(done)).
  skip_stage (validateListLogoURI_checks (λ d, ∀ t, d ≠ ExistingTokenModified t)
                tokenList ltac:(done)).
  skip_stage (validateTimestamp_checks (λ d, ∀ t, d ≠ ExistingTokenModified t)
                Date_parse tokenList previous ltac:(done) ltac:(done)).
  skip_stage (validateVersion_checks (λ d, ∀ t, d ≠ ExistingTokenModified t)
                tokenList previous ltac:(done)).
  skip_stage (checkDuplicates_checks (λ d, ∀ t, d ≠ ExistingTokenModified t)
                tokenList ltac:(by intros []; intros)).
  destruct (checks_unit (λ _, True) (validateExistingTokens tokenList previous) w)
    as [Hp'|(d & _ & Hp')]; [by apply validateExistingTokens_checks|..].
  - rewrite (bind_Normal _ _ _ _ Hp').
    destruct (checks_unit (λ d, ∀ t, d ≠ ExistingTokenModified t)
                (validateChainIds tokenList) w)
      as [Hc|(d & Hd & Hc)]; [by apply validateChainIds_checks|..].
    + rewrite Hc. done.
    + rewrite Hc. intros [= ->]. by edestruct Hd.
  - rewrite (bind_ProcessExit _ _ _ _ _ Hp'). intros [= ->]. done.
Qed.

Lemma NoDup_fmap_eq {A B} (f : A → B) (l : list A) x y :
  NoDup (f <$> l) → x ∈ l → y ∈ l → f x = f y → x = y.
Proof.
  intros Hnd [i Hi]%list_elem_of_lookup [j Hj]%list_elem_of_lookup E.
  assert (i = j) as ->; [|congruence].
  eapply NoDup_alt; [exact Hnd| |].
  - rewrite list_lookup_fmap, Hi. reflexivity.
  - rewrite list_lookup_fmap, Hj, E. reflexivity.
Qed.

(** X8. A submission that keeps the records of the previous list as they
    are, in their order, and only appends records, is never rejected for
    having modified an existing token: whatever else a run prints, it
    does not print that diagnostic. *)
Theorem appended_records_are_never_a_modification
    validate Date_parse w tokenList previous added :
  TokenList.tokens tokenList = TokenList.tokens previous ++ added →
  ∀ d, ConsoleError d ∈ (validateTokenList validate Date_parse tokenList (Some previous) w).1 →
       violationKind d ≠ ImmutableRecordViolation.
Proof.
  intros Hl d Hd.
  destruct (validateTokenList_run validate Date_parse tokenList (Some previous) w)
    as [(d' & _ & Hf & Hr)|(_ & uris & [Hr|(d' & Hk & Hr)])];
    rewrite Hr in Hd; simpl in Hd.
  - apply list_elem_of_singleton in Hd as [= ->].
    destruct d'; try done. exfalso.
    apply modified_is_reported_after_duplicates in Hf as [Hdup Hmod].
    destruct (checkDuplicates_run tokenList w) as [[(Hid & _) _]|(_ & d & _ & Hfd)];
      [|unfold passes, failsWith in *; congruence].
    apply validateExistingTokens_offender in Hmod
      as (t & (l1 & l2 & Ht & _ & Hun) & [= ->]).
    apply Hun. intros q Hq. unfold previousRecord in Hq.
    apply last_Some_elem_of, list_elem_of_filter in Hq as [E Hq].
    assert (q = t) as ->; [|apply not_modified_refl].
    apply (NoDup_fmap_eq identityKey (TokenList.tokens tokenList)); [done|..|done].
    + rewrite Hl. apply elem_of_app. by left.
    + rewrite Ht. apply elem_of_app. right. left.
  - by apply ConsoleError_in_probes in Hd.
  - apply ConsoleError_in_probes in Hd as [= ->]. rewrite Hk. done.
Qed.

(** ** A previous timestamp that is no date *)

(** X9. When the timestamp of the previous list does not parse as a
    date, the comparison with it is always false: the timestamp check
    never reports a timestamp older than the previous one, and passes
    exactly when the candidate's timestamp is not in the future. *)
Theorem invalid_previous_timestamp_is_ignored Date_parse w tokenList previous :
  Date_parse (TokenList.timestamp previous) = None →
  ¬ failsWith (validateTimestamp Date_parse tokenList (Some previous)) w
      TimestampOlderThanPrevious
  ∧ (passes (validateTimestamp Date_parse tokenList (Some previous)) w
     ↔ ¬ timestampInFuture Date_parse w tokenList)
  ∧ validateTimestamp Date_parse tokenList (Some previous) w
    = validateTimestamp Date_parse tokenList None w.
Proof.
  intros H. unfold passes, failsWith, timestampInFuture.
  rewrite <- Date_lt_before, !validateTimestamp_run, H. unfold Date_gt.
  assert (Date_lt (Date_parse (TokenList.timestamp tokenList)) None = false) as ->.
  { unfold Date_lt. by destruct (Date_parse (TokenList.timestamp tokenList)). }
  destruct (Date_lt _ _); split_and!; try done; intuition congruence.
Qed.

Lemma invalid_previous_timestamp_is_ignored_witness :
  Sample.parse (TokenList.timestamp Fixture.undatedPrevious) = None
  ∧ passes (validateTimestamp Sample.parse Sample.candidate
              (Some Fixture.undatedPrevious)) Sample.world.
Proof.
  split; [reflexivity|].
  apply (invalid_previous_timestamp_is_ignored Sample.parse Sample.world
           Sample.candidate Fixture.undatedPrevious eq_refl).
Defined.

(** ** Versions along a history *)

Lemma validateVersion_pass w tokenList previous :
  passes (validateVersion tokenList (Some previous)) w
  ↔ Version_lt (TokenList.version previous) (TokenList.version tokenList).
Proof.
  unfold passes, validateVersion. rewrite <- Version_lt_decide.
  destruct (_ || _ || _); simpl; [|done]. rewrite fail_run. split; congruence.
Qed.

(** X10. Acceptance by the version check is a strict total order on the
    version triples: if [b] is accepted after [a] and [c] after [b] then
    [c] is accepted after [a]; [a] is never accepted after [b] when [b]
    is accepted after [a]; and of two documents with different triples
    one is accepted after the other. *)
Theorem version_acceptance_is_a_strict_order w a b c :
  (passes (validateVersion b (Some a)) w → passes (validateVersion c (Some b)) w →
   passes (validateVersion c (Some a)) w)
  ∧ (passes (validateVersion b (Some a)) w → ¬ passes (validateVersion a (Some b)) w)
  ∧ (TokenList.version a ≠ TokenList.version b →
     passes (validateVersion b (Some a)) w ∨ passes (validateVersion a (Some b)) w).
Proof.
  rewrite !validateVersion_pass. unfold Version_lt.
  destruct (TokenList.version a) as [a1 a2 a3], (TokenList.version b) as [b1 b2 b3],
    (TokenList.version c) as [c1 c2 c3]; simpl.
  split_and!; [lia|lia|].
  intros Hne.
  destruct (decide (a1 = b1)) as [->|]; [|lia].
  destruct (decide (a2 = b2)) as [->|]; [|lia].
  destruct (decide (a3 = b3)) as [->|]; [done|lia].
Qed.

(** ** The order of the records *)

Lemma checkDuplicates_pass w tokenList :
  passes (checkDuplicates tokenList) w ↔ allDistinct (TokenList.tokens tokenList).
Proof.
  destruct (checkDuplicates_run tokenList w) as [[Hd Hr]|(Hno & d & _ & Hr)]; [done|].
  split; [|done]. unfold passes, failsWith in *. congruence.
Qed.

Lemma validateExistingTokens_pass w tokenList previousTokenList :
  passes (validateExistingTokens tokenList previousTokenList) w
  ↔ ∀ previous, previousTokenList = Some previous →
                ∀ t, t ∈ TokenList.tokens tokenList → unchanged previous t.
Proof.
  destruct previousTokenList as [previous|].
  - rewrite validateExistingTokens_unchanged. split.
    + by intros H p [= <-].
    + intros H. by apply H.
  - split; [by intros _ p|done].
Qed.

Lemma validateLogoURIs_returns w tokenList :
  returnsToCaller (validateLogoURIs tokenList) w
  ↔ ∀ t, t ∈ TokenList.tokens tokenList → reachable w t.
Proof.
  split.
  - intros (tr & a & Hr).
    destruct (@firstOffender_exists _ (reachable w)
                (λ x, decide (network w (Token.logoURI x) = Some 200))
                (TokenList.tokens tokenList))
      as [Hall|(t & l1 & l2 & Hl & Hall & Ht)]; [done|].
    rewrite (validateLogoURIs_stops tokenList w l1 t l2 Hl Hall Ht) in Hr. done.
  - intros Hall. exists (probes (TokenList.tokens tokenList)), tt.
    by apply validateLogoURIs_reachable.
Qed.

(** X11. Whether a list is let through does not depend on the order of
    its records: listing the same records in another order changes the
    verdict of neither the uniqueness loops, nor the comparison with the
    previous list, nor the chain check, nor the probes (only which
    record a failing run names). *)
Theorem reordering_records_keeps_the_verdict w tokenList tokenList' previousTokenList :
  TokenList.tokens tokenList ≡ₚ TokenList.tokens tokenList' →
  (passes (checkDuplicates tokenList) w ↔ passes (checkDuplicates tokenList') w)
  ∧ (passes (validateExistingTokens tokenList previousTokenList) w
     ↔ passes (validateExistingTokens tokenList' previousTokenList) w)
  ∧ (passes (validateChainIds tokenList) w ↔ passes (validateChainIds tokenList') w)
  ∧ (returnsToCaller (validateLogoURIs tokenList) w
     ↔ returnsToCaller (validateLogoURIs tokenList') w).
Proof.
  intros Hp. split_and!.
  - rewrite !checkDuplicates_pass. unfold allDistinct. by rewrite Hp.
  - rewrite !validateExistingTokens_pass. by setoid_rewrite Hp.
  - rewrite !validateChainIds_pass. by setoid_rewrite Hp.
  - rewrite !validateLogoURIs_returns. by setoid_rewrite Hp.
Qed.

(** ** Acceptance *)

Lemma when_fail_pass b d w : passes (when b (fail d)) w ↔ b = false.
Proof.
  unfold passes. destruct b; simpl; [rewrite fail_run|]; split; done.
Qed.

Lemma validateSchema_pass validate w tokenList :
  passes (validateSchema validate tokenList) w ↔ validate tokenList = true.
Proof. unfold validateSchema. by rewrite when_fail_pass, negb_false_iff. Qed.

Lemma validateListName_pass w tokenList :
  passes (validateListName tokenList) w
  ↔ TokenList.name tokenList = "Apertum Token List".
Proof.
  unfold validateListName. rewrite when_fail_pass, bool_decide_eq_false.
  split; [apply dec_stable|by intros ? []].
Qed.

Lemma validateListLogoURI_pass w tokenList :
  passes (validateListLogoURI tokenList) w
  ↔ TokenList.logoURI tokenList = REQUIRED_LIST_LOGO_URI.
Proof.
  unfold validateListLogoURI. rewrite when_fail_pass, bool_decide_eq_false.
  split; [apply dec_stable|by intros ? []].
Qed.

Lemma checkDuplicates_pass_iff w tokenList :
  passes (checkDuplicates tokenList) w ↔ ¬ hasDuplicate (TokenList.tokens tokenList).
Proof.
  rewrite hasDuplicate_iff.
  destruct (checkDuplicates_run tokenList w) as [[Hd Hr]|(Hno & d & _ & Hr)]; [tauto|].
  unfold passes, failsWith in *. split; [congruence|tauto].
Qed.

Lemma validateKeywords_pass w tokenList :
  passes (validateKeywords tokenList) w
  ↔ ∀ keyword, keyword ∈ REQUIRED_KEYWORDS → keyword ∈ TokenList.keywords tokenList.
Proof.
  unfold validateKeywords. rewrite when_fail_pass, negb_false_iff, forallb_forall.
  setoid_rewrite bool_decide_eq_true. by setoid_rewrite list_elem_of_In.
Qed.

Lemma validateTimestamp_pass Date_parse w tokenList previousTokenList :
  passes (validateTimestamp Date_parse tokenList previousTokenList) w
  ↔ ¬ timestampInFuture Date_parse w tokenList
    ∧ ¬ timestampRegressed Date_parse tokenList previousTokenList.
Proof.
  destruct (validateTimestamp_cases Date_parse tokenList previousTokenList w)
    as (f & r & HF & HR & Hrun).
  unfold passes. rewrite Hrun, <- HF, <- HR. destruct f, r; intuition congruence.
Qed.

Lemma validateVersion_pass_option w tokenList previousTokenList :
  passes (validateVersion tokenList previousTokenList) w
  ↔ ∀ previous, previousTokenList = Some previous →
                Version_lt (TokenList.version previous) (TokenList.version tokenList).
Proof.
  destruct previousTokenList as [previous|].
  - rewrite validateVersion_pass. split.
    + by intros H p [= <-].
    + intros H. by apply H.
  - split; [by intros _ p|done].
Qed.

Lemma deterministicChecks_pass validate Date_parse w tokenList previous :
  passes (deterministicChecks validate Date_parse tokenList previous) w
  ↔ ∀ stage, stage ∈ deterministicStages validate Date_parse tokenList previous →
             passes stage w.
Proof.
  destruct (deterministicChecks_run validate Date_parse tokenList previous w)
    as [[Hr Hall]|(stage & d & Hs & _ & Hsd & Hr)]; [done|].
  unfold passes, failsWith in *. split; [congruence|].
  intros Hall. specialize (Hall stage Hs). congruence.
Qed.

Lemma validateTokenList_returns validate Date_parse w tokenList previous :
  returnsToCaller (validateTokenList validate Date_parse tokenList previous) w
  ↔ passes (deterministicChecks validate Date_parse tokenList previous) w
    ∧ returnsToCaller (validateLogoURIs tokenList) w.
Proof.
  unfold validateTokenList.
  destruct (deterministicChecks_run validate Date_parse tokenList previous w)
    as [[Hr _]|(_ & d & _ & _ & _ & Hr)].
  - unfold returnsToCaller. rewrite (bind_Normal _ _ _ _ Hr), bind_run.
    destruct (validateLogoURIs tokenList w) as [tr [[]|code]]; simpl.
    + split; [intros _; split; [done|by exists tr, tt]|]. intros _. by eexists _, _.
    + split; [by intros (? & ? & ?)|]. by intros [_ (? & ? & ?)].
  - unfold returnsToCaller, passes, failsWith in *.
    rewrite (bind_ProcessExit _ _ _ _ _ Hr), Hr.
    split; [by intros (? & ? & ?)|]. by intros [? _].
Qed.

(** X12. On a candidate and a previous document of the declared shape,
    the validator comes back to its caller, having logged the success
    message, exactly when the candidate satisfies every rule at once: the schema, the fixed name, keywords and logo, a timestamp
    neither in the future nor before the previous one, a version above
    the previous one, pairwise distinct keys, no change to a record of
    the previous list, allowed chains, and a 200 answer for every logo.
    The run then consists of the probes, in list order, and the message. *)
Theorem accepted_exactly_when_every_rule_holds
    validate Date_parse w tokenList previousTokenList :
  (returnsToCaller (validateTokenList validate Date_parse tokenList previousTokenList) w
   ↔ acceptable validate Date_parse w tokenList previousTokenList)
  ∧ (acceptable validate Date_parse w tokenList previousTokenList →
     validateTokenList validate Date_parse tokenList previousTokenList w
     = (probes (TokenList.tokens tokenList) ++ [ConsoleLog successText], Normal tt)).
Proof.
  assert (returnsToCaller
            (validateTokenList validate Date_parse tokenList previousTokenList) w
          ↔ acceptable validate Date_parse w tokenList previousTokenList) as Hiff.
  { rewrite validateTokenList_returns, deterministicChecks_pass, validateLogoURIs_returns.
    unfold acceptable, deterministicStages.
    rewrite <- Forall_forall, !Forall_cons, Forall_nil.
    rewrite validateSchema_pass, validateListName_pass, validateKeywords_pass,
      validateListLogoURI_pass, validateTimestamp_pass, validateVersion_pass_option,
      checkDuplicates_pass_iff, validateExistingTokens_pass, validateChainIds_pass.
    tauto. }
  split; [exact Hiff|]. intros Hacc.
  apply Hiff, validateTokenList_returns in Hacc as [Hdet Hprobe].
  pose proof (proj1 (validateLogoURIs_returns w tokenList) Hprobe) as Hall.
  unfold validateTokenList.
  rewrite (bind_Normal _ _ _ _ Hdet), bind_run.
  rewrite (validateLogoURIs_reachable tokenList w Hall). done.
Qed.

(** ** Reading the previous list *)



Example previous_list_of_a_pull_request :
  readPreviousTokenList (Fixture.pullRequest None) = Some Sample.previous
  ∧ readPreviousTokenList (Fixture.pullRequest (Some "")) = Some Sample.previous
  ∧ readPreviousTokenList (Fixture.pullRequest (Some "main")) = Some Sample.previous
  ∧ readPreviousTokenList (Fixture.pullRequest (Some "develop")) = None
  ∧ readPreviousTokenList Fixture.noHistory = None.
Proof. by vm_compute. Qed.

(** ** Uniqueness is per chain *)

Lemma NoDup_per_chain (f : Token.t → string) (l : list Token.t) :
  NoDup ((λ t, (Token.chainId t, f t)) <$> l)
  ↔ ∀ chain, NoDup ((λ t, (Token.chainId t, f t))
                      <$> filter (λ t, Token.chainId t = chain) l).
Proof.
  induction l as [|x l IH]; simpl.
  - split; [intros _ chain|intros _]; constructor.
  - assert ((Token.chainId x, f x) ∈ (λ t, (Token.chainId t, f t)) <$> l
            ↔ (Token.chainId x, f x)
              ∈ (λ t, (Token.chainId t, f t))
                  <$> filter (λ t, Token.chainId t = Token.chainId x) l) as Hin.
    { rewrite !list_elem_of_fmap. split.
      - intros (y & E & Hy). exists y. split; [done|].
        apply list_elem_of_filter. split; [|done]. by injection E.
      - intros (y & E & Hy). exists y. split; [done|].
        by apply list_elem_of_filter in Hy as [_ ?]. }
    rewrite NoDup_cons, IH, Hin. split.
    + intros [Hx Hall] chain. rewrite filter_cons.
      destruct (decide (Token.chainId x = chain)) as [<-|]; [|done].
      rewrite fmap_cons. apply NoDup_cons. split; [done|apply Hall].
    + intros Hall. split.
      * specialize (Hall (Token.chainId x)).
        rewrite filter_cons_True, fmap_cons in Hall by done.
        by apply NoDup_cons in Hall as [? _].
      * intros chain. specialize (Hall chain). rewrite filter_cons in Hall.
        destruct (decide (Token.chainId x = chain)); [|done].
        rewrite fmap_cons in Hall. by apply NoDup_cons in Hall as [_ ?].
Qed.

(** X14. Uniqueness is a matter of each chain alone: the four loops pass
    on a list exactly when they pass on the records of every chain taken
    apart, so records of different chains never collide, whatever their
    addresses, names, symbols and logos. *)
Theorem uniqueness_is_per_chain w tokenList :
  passes (checkDuplicates tokenList) w
  ↔ ∀ chain,
      passes
        (checkDuplicates
           (TokenList.mk (TokenList.name tokenList) (TokenList.version tokenList)
              (TokenList.keywords tokenList) (TokenList.logoURI tokenList)
              (TokenList.timestamp tokenList)
              (filter (λ t, Token.chainId t = chain) (TokenList.tokens tokenList))))
        w.
Proof.
  setoid_rewrite checkDuplicates_pass. unfold allDistinct. simpl.
  unfold identityKey, nameKey, symbolKey, logoKey.
  rewrite (NoDup_per_chain (λ t, toLowerCase (Token.address t))),
    (NoDup_per_chain (λ t, toLowerCase (Token.name t))),
    (NoDup_per_chain (λ t, toLowerCase (Token.symbol t))),
    (NoDup_per_chain Token.logoURI).
  split.
  - intros (H1 & H2 & H3 & H4) chain. auto.
  - intros H. split_and!; intros chain; apply (H chain).
Qed.

End Properties.

(** * The sample documents, run with the ASCII fold *)

#[local] Existing Instance asciiLowerCase.

(** Two records of one chain whose addresses differ in letter case only
    are duplicates. *)
Example case_differing_addresses_are_duplicates w :
  Token.address Sample.foo ≠ Token.address Sample.fooLower
  ∧ failsWith (checkDuplicates
                 (Sample.document (mkVersion 1 0 0) "2024-02-18T12:00:00Z"
                    [Sample.foo; Sample.fooLower]))
      w (DuplicateAddress Sample.fooLower).
Proof. split; [done|]. by vm_compute. Qed.

(** The same address on two chains is no duplicate. *)
Example same_address_on_two_chains_passes w :
  Token.address Sample.foo = Token.address Sample.fooElsewhere
  ∧ passes (checkDuplicates
              (Sample.document (mkVersion 1 0 0) "2024-02-18T12:00:00Z"
                 [Sample.foo; Sample.fooElsewhere]))
      w.
Proof. split; [done|]. by vm_compute. Qed.


(** C7, counterexample to the claim as stated: one candidate and one
    previous document, checked at two times, get two verdicts. The candidate is dated
    1 March 2024; on 18 February it is in the future, on 1 April it is
    not. *)
Lemma verdict_depends_on_the_clock :
  failsWith
    (deterministicChecks Sample.acceptAll Sample.parse Sample.candidate
       (Some Sample.previous))
    Sample.earlier TimestampInFuture
  ∧ passes
      (deterministicChecks Sample.acceptAll Sample.parse Sample.candidate
         (Some Sample.previous))
      Sample.world.
Proof. split; by vm_compute. Qed.

Lemma deterministic_checks_read_the_clock_only_witness :
  network Sample.world "" ≠ network Sample.offline ""
  ∧ deterministicChecks Sample.acceptAll Sample.parse Sample.candidate
      (Some Sample.previous) Sample.world
    = deterministicChecks Sample.acceptAll Sample.parse Sample.candidate
        (Some Sample.previous) Sample.offline.
Proof.
  split; [discriminate|].
  apply (deterministic_checks_read_the_clock_only Sample.acceptAll Sample.parse
           Sample.candidate (Some Sample.previous) Sample.world Sample.offline).
  reflexivity.
Defined.

(** A run in which every check passes: the three logos are probed in the
    order of the list, after the checks and before the success message. *)
Example passing_run :
  validateTokenList Sample.acceptAll Sample.parse Sample.candidate
    (Some Sample.previous) Sample.world
  = ([AxiosHead "https://example.org/foo.svg";
      AxiosHead "https://example.org/bar.svg";
      AxiosHead "https://example.org/baz.svg";
      ConsoleLog successText],
     Normal tt).
Proof. by vm_compute. Qed.

(** A run stopped by the chain allow-list: no logo is probed. *)
Example run_stopped_before_the_probes :
  validateTokenList Sample.acceptAll Sample.parse
    (Sample.document (mkVersion 1 0 1) "2024-03-01T00:00:00Z"
       [Sample.foo; Token.mk "One" 1 "ONE" 18 "0xabc0000000000000000000000000000000000009"
                      "https://example.org/one.svg"])
    (Some Sample.previous) Sample.world
  = ([ConsoleError
        (InvalidChainId
           (Token.mk "One" 1 "ONE" 18 "0xabc0000000000000000000000000000000000009"
              "https://example.org/one.svg"))],
     ProcessExit 1).
Proof. by vm_compute. Qed.

Example schema_failure_hides_the_rest w :
  validateTokenList (λ _, false) Sample.parse Sample.renamed (Some Sample.previous) w
  = ([ConsoleError SchemaValidationFailed], ProcessExit 1).
Proof. reflexivity. Qed.

Example twin_in_previous_list_wins w :
  failsWith
    (validateExistingTokens
       (Sample.document (mkVersion 1 0 1) "2024-03-01T00:00:00Z" [Sample.foo])
       (Some (Sample.document (mkVersion 1 0 0) "2024-02-18T12:00:00Z"
                [Sample.foo; Fixture.fooTwin])))
    w (ExistingTokenModified Sample.foo).
Proof. by vm_compute. Qed.

Lemma appended_records_are_never_a_modification_witness :
  TokenList.tokens Sample.candidate = TokenList.tokens Sample.previous ++ [Sample.baz]
  ∧ ∀ d, ConsoleError d
           ∈ (validateTokenList Sample.acceptAll Sample.parse Sample.candidate
                (Some Sample.previous) Sample.offline).1 →
         violationKind d ≠ ImmutableRecordViolation.
Proof.
  split; [reflexivity|].
  apply (appended_records_are_never_a_modification Sample.acceptAll Sample.parse
           Sample.offline Sample.candidate Sample.previous [Sample.baz]).
  reflexivity.
Defined.

Lemma reordering_records_keeps_the_verdict_witness :
  (passes (checkDuplicates Sample.candidate) Sample.world
   ↔ passes (checkDuplicates
               (Sample.document (mkVersion 1 0 1) "2024-03-01T00:00:00Z"
                  [Sample.baz; Sample.foo; Sample.bar])) Sample.world)
  ∧ (passes (validateExistingTokens Sample.candidate (Some Sample.previous)) Sample.world
     ↔ passes (validateExistingTokens
                 (Sample.document (mkVersion 1 0 1) "2024-03-01T00:00:00Z"
                    [Sample.baz; Sample.foo; Sample.bar])
                 (Some Sample.previous)) Sample.world)
  ∧ (passes (validateChainIds Sample.candidate) Sample.world
     ↔ passes (validateChainIds
                 (Sample.document (mkVersion 1 0 1) "2024-03-01T00:00:00Z"
                    [Sample.baz; Sample.foo; Sample.bar])) Sample.world)
  ∧ (returnsToCaller (validateLogoURIs Sample.candidate) Sample.world
     ↔ returnsToCaller
         (validateLogoURIs
            (Sample.document (mkVersion 1 0 1) "2024-03-01T00:00:00Z"
               [Sample.baz; Sample.foo; Sample.bar])) Sample.world).
Proof.
  apply (reordering_records_keeps_the_verdict Sample.world Sample.candidate
           (Sample.document (mkVersion 1 0 1) "2024-03-01T00:00:00Z"
              [Sample.baz; Sample.foo; Sample.bar])
           (Some Sample.previous)).
  change (TokenList.tokens Sample.candidate)
    with ([Sample.foo; Sample.bar] ++ [Sample.baz]).
  apply Permutation_app_comm.
Defined.

(** C1, counterexample to the claim as stated. The previous list holds
    two records with one identity key. A candidate that resubmits the
    first of them as it is, and a candidate that resubmits the whole
    list as it is, are both reported as modifying that record: the map
    of the previous records kept the second under the key. *)
Lemma unchanged_record_reported_as_modified :
  Sample.foo ∈ TokenList.tokens Fixture.twins
  ∧ ¬ modified Sample.foo Sample.foo
  ∧ failsWith
      (validateExistingTokens
         (Sample.document (mkVersion 1 0 1) "2024-03-01T00:00:00Z" [Sample.foo])
         (Some Fixture.twins))
      Sample.world (ExistingTokenModified Sample.foo)
  ∧ failsWith (validateExistingTokens Fixture.twins (Some Fixture.twins))
      Sample.world (ExistingTokenModified Sample.foo).
Proof.
  split; [left|]. split; [apply not_modified_refl|]. split; by vm_compute.
Qed.

(** C10, counterexample to the claim as stated. The candidate record
    changes nothing but the letter case of the address of a record of
    the previous list, and is reported as modified: the previous list
    holds a later record with the same identity key. *)
Lemma case_variant_reported_after_a_twin :
  Sample.foo ∈ TokenList.tokens Fixture.twins
  ∧ caseVariant Sample.foo Sample.fooLower
  ∧ Token.address Sample.fooLower ≠ Token.address Sample.foo
  ∧ failsWith
      (validateExistingTokens
         (Sample.document (mkVersion 1 0 1) "2024-03-01T00:00:00Z" [Sample.fooLower])
         (Some Fixture.twins))
      Sample.world (ExistingTokenModified Sample.fooLower).
Proof.
  split; [left|]. split; [by repeat split|]. split; [discriminate|by vm_compute].
Qed.

Lemma address_case_change_passes_witness :
  Token.address Sample.fooLower ≠ Token.address Sample.foo
  ∧ previousRecord Sample.previous Sample.fooLower = Some Sample.foo
  ∧ passes
      (validateExistingTokens
         (Sample.document (mkVersion 1 0 1) "2024-03-01T00:00:00Z"
            [Sample.fooLower; Sample.bar; Sample.baz])
         (Some Sample.previous))
      Sample.world.
Proof.
  assert (previousRecord Sample.previous Sample.fooLower = Some Sample.foo) as Hrec
    by (vm_compute; reflexivity).
  split; [discriminate|]. split; [exact Hrec|].
  apply (address_case_change_passes Sample.world Sample.previous Sample.fooLower
           Sample.foo (or_introl Hrec)).
  - repeat split.
  - intros y Hy. simpl in Hy.
    apply elem_of_cons in Hy as [->|Hy]; [by left|]. right.
    apply elem_of_cons in Hy as [->|Hy].
    + intros q Hq. vm_compute in Hq. injection Hq as <-. apply not_modified_refl.
    + apply list_elem_of_singleton in Hy. subst y. intros q Hq. vm_compute in Hq.
      discriminate.
Defined.
